(** * pdm.cli.options: reusable command-line option specifications

    A shallow embedding of [src/pdm/cli/options.py] and the properties its
    specification states about it.

    - [Py]       the fragment of the Python runtime the module relies on:
                 text, values, exceptions, [str.split], [str.strip];
    - [Actions]  the parse-time actions [CallbackAction] and [SplitList],
                 and [from_splitted_env];
    - [Specs]    the [Option] / [ArgumentGroup] objects, which are mutable
                 and shared, in an object store;
    - [Registry] registration of a specification tree against the grammar
                 engine ([add_to_parser] / [add_to_group]);
    - [Driver]   the catalog's handlers and the execution of the deferred
                 invocations. *)

From stdpp Require Import base option list gmap strings.
From Stdlib Require Import NArith ZArith Permutation Lia.

Set Warnings "-register-all".

Open Scope list_scope.

(** ** The Python fragment *)

Module Py.

(** A [str] is a sequence of Unicode code points. *)
Abbreviation char := N (only parsing).
Abbreviation str := (list N) (only parsing).

(** Code points of an ASCII literal. *)
Definition text (s : string) : str :=
  map Ascii.N_of_ascii (String.list_ascii_of_string s).

(** Names of attributes and keywords are identifiers; they are kept as
    [string] so that they can key a [gmap]. *)
Abbreviation ident := string (only parsing).

(** Object identities (for [Option] and [ArgumentGroup] instances). *)
Abbreviation ref := nat (only parsing).

(** The functions bound as callbacks: the four handlers of the catalog and
    any other function. *)
Inductive handler :=
  | frozen_lockfile_fn
  | pep582_fn
  | no_isolation_fn
  | ignore_python_fn
  | user_fn (n : nat).

Inductive value :=
  | VNone
  | VBool (b : bool)
  | VInt (z : Z)
  | VStr (s : str)
  | VList (l : list value)
  | VRef (r : ref)                       (* an Option or ArgumentGroup *)
  | VFunc (f : handler)                  (* a function object *)
  | VCallbackAction                      (* the class CallbackAction *)
  | VSplitList (separator : str)         (* the class split_lists(separator) *)
  | VPartial (f : value) (values option_string : value).
      (* functools.partial(f, values=.., option_string=..) *)

(** Truth value of an object, as [or] and [if not] test it. *)
Definition truthy (v : value) : bool :=
  match v with
  | VNone => false
  | VBool b => b
  | VInt z => negb (z =? 0)%Z
  | VStr s => negb (bool_decide (s = []))
  | VList l => negb (bool_decide (length l = 0))
  | _ => true
  end.

Inductive exn :=
  | AttributeError
  | ValueError
  | TypeError
  | SystemExit (code : Z).

Inductive result (A : Type) :=
  | Ok (a : A)
  | Raise (e : exn).
Arguments Ok {A} a.
Arguments Raise {A} e.

#[export] Instance result_ret : MRet result := λ A a, Ok a.
#[export] Instance result_bind : MBind result := λ A B k m,
  match m with
  | Ok a => k a
  | Raise e => Raise e
  end.

(** *** [str.isspace] on one code point

    The characters [str.strip()] removes: those whose general category is
    Zs or whose bidirectional class is WS, B or S. *)
Definition isspace (c : char) : bool :=
  ((9 <=? c) && (c <=? 13) || (28 <=? c) && (c <=? 32)
   || (c =? 133) || (c =? 160) || (c =? 5760)
   || (8192 <=? c) && (c <=? 8202)
   || (c =? 8232) || (c =? 8233) || (c =? 8239) || (c =? 8287)
   || (c =? 12288))%N.

Fixpoint lstrip (s : str) : str :=
  match s with
  | [] => []
  | c :: s' => if isspace c then lstrip s' else s
  end.

Definition rstrip (s : str) : str := rev (lstrip (rev s)).

(** [s.strip()] *)
Definition strip (s : str) : str := rstrip (lstrip s).

(** The first character of a text, when it has one, is not a space. *)
Definition starts_clean (s : str) : Prop :=
  match s with
  | [] => True
  | c :: _ => isspace c = false
  end.

(** *** [str.split(sep)]

    [startswith sep s] tells whether [sep] occurs at the head of [s]. *)
Fixpoint startswith (sep s : str) : bool :=
  match sep, s with
  | [], _ => true
  | _ :: _, [] => false
  | a :: sep', b :: s' => (a =? b)%N && startswith sep' s'
  end.

(** One left-to-right scan. [skip] counts the characters of a separator
    occurrence that are still to be passed over, [cur] is the piece being
    read, in reverse. *)
Fixpoint split_scan (sep : str) (skip : nat) (cur : str) (s : str) : list str :=
  match s with
  | [] => [rev cur]
  | c :: s' =>
      match skip with
      | S k => split_scan sep k cur s'
      | O =>
          if startswith sep s
          then rev cur :: split_scan sep (length sep - 1) [] s'
          else split_scan sep 0 (c :: cur) s'
      end
  end.

(** [s.split(sep)]: an empty separator is rejected with [ValueError]. *)
Definition split (s sep : str) : result (list str) :=
  match sep with
  | [] => Raise ValueError
  | _ :: _ => Ok (split_scan sep 0 [] s)
  end.

(** [sep.join(pieces)] *)
Fixpoint join (sep : str) (pieces : list str) : str :=
  match pieces with
  | [] => []
  | [p] => p
  | p :: ps => p ++ sep ++ join sep ps
  end.

(** *** Objects with attributes

    An [argparse.Namespace] is a plain object: a finite map from attribute
    names to values. *)
Abbreviation Namespace := (gmap string value) (only parsing).

Definition hasattr (o : Namespace) (name : ident) : bool :=
  bool_decide (is_Some (o !! name)).

(** [getattr(o, name)] without a default raises when the attribute is
    missing. *)
Definition getattr (o : Namespace) (name : ident) : result value :=
  match o !! name with
  | Some v => Ok v
  | None => Raise AttributeError
  end.

Definition setattr (o : Namespace) (name : ident) (v : value) : Namespace :=
  <[name := v]> o.

(** [l.append(x)] and [l.extend(xs)] exist on lists only; the value they
    return here is the list after the in-place update. *)
Definition append (l : value) (x : value) : result value :=
  match l with
  | VList items => Ok (VList (items ++ [x]))
  | _ => Raise AttributeError
  end.

Definition extend (l : value) (xs : list value) : result value :=
  match l with
  | VList items => Ok (VList (items ++ xs))
  | _ => Raise AttributeError
  end.

(** [os.environ] and [os.getenv] *)
Abbreviation Environ := (gmap (list N) (list N)) (only parsing).

Definition getenv (environ : Environ) (name : str) : value :=
  match environ !! name with
  | Some v => VStr v
  | None => VNone
  end.

End Py.
Import Py.

(** ** Parse-time actions *)

Module Actions.

(** *** CallbackAction

    What an instance holds after [__init__]: the fields of
    [argparse.Action] the module relies on, and the callback. *)
Record CallbackAction := {
  option_strings : list str;
  dest : ident;
  callback : value;
}.

(** [CallbackAction.__call__(self, parser, namespace, values, option_string)] *)
Definition CallbackAction_call (self : CallbackAction) (namespace : Namespace)
    (values option_string : value) : result Namespace :=
  let namespace :=
    if negb (hasattr namespace "callbacks")
    then setattr namespace "callbacks" (VList [])
    else namespace in
  let callback := VPartial (callback self) values option_string in
  callbacks ← getattr namespace "callbacks";
  callbacks ← append callbacks callback;
  mret (setattr namespace "callbacks" callbacks).

(** The deferred invocations a parse result holds, read the way the command
    driver reads them: [getattr(options, "callbacks", [])]. *)
Definition deferred (namespace : Namespace) : list value :=
  match namespace !! "callbacks" with
  | Some (VList l) => l
  | _ => []
  end.

(** The [callbacks] attribute is missing or is a list. *)
Definition callbacks_ready (namespace : Namespace) : Prop :=
  namespace !! "callbacks" = None
  ∨ ∃ l, namespace !! "callbacks" = Some (VList l).

(** *** The grammar engine's dispatch on callback-bound flags

    [argparse] keeps the registered actions and, while it scans argv, calls
    the action of each flag it matches with the parsed value and the alias
    that matched. [actions] is in declaration order; a match is the alias
    together with the value parsed for it. An unknown flag ends the process
    with status 2. *)
Definition find_action (actions : list CallbackAction) (option_string : str)
    : option CallbackAction :=
  List.find (λ a, bool_decide (option_string ∈ option_strings a)) actions.

Fixpoint parse_args (actions : list CallbackAction) (argv : list (str * value))
    (namespace : Namespace) : result Namespace :=
  match argv with
  | [] => mret namespace
  | (option_string, values) :: argv' =>
      match find_action actions option_string with
      | Some action =>
          namespace ← CallbackAction_call action namespace values (VStr option_string);
          parse_args actions argv' namespace
      | None => Raise (SystemExit 2)
      end
  end.

(** The record a match leaves behind. *)
Definition invocation (actions : list CallbackAction) (m : str * value) : value :=
  match find_action actions m.1 with
  | Some action => VPartial (callback action) m.2 (VStr m.1)
  | None => VNone
  end.

(** *** split_lists

    [[value.strip() for value in pieces if value.strip()]] *)
Fixpoint stripped (pieces : list str) : list str :=
  match pieces with
  | [] => []
  | value :: rest =>
      if truthy (VStr (strip value))
      then strip value :: stripped rest
      else stripped rest
  end.

(** [SplitList.__call__(self, parser, args, values, option_string)] of the
    class [split_lists(separator)] returns, for an action whose destination
    is [dest]. *)
Definition SplitList_call (separator : str) (dest : ident) (args : Namespace)
    (values : value) : result Namespace :=
  match values with
  | VStr values =>
      current ← getattr args dest;
      let split := if truthy current then current else VList [] in
      match split with
      | VList _ =>          (* [split.extend] is looked up before the split *)
          pieces ← Py.split values separator;
          split ← extend split (VStr <$> stripped pieces);
          mret (setattr args dest split)
      | _ => Raise AttributeError
      end
  | _ => mret args
  end.

(** [split_lists(separator)] returns the class; what matters of it is the
    [__call__] of its instances. *)
Definition split_lists (separator : str)
    : ident → Namespace → value → result Namespace :=
  SplitList_call separator.

(** *** from_splitted_env *)
Definition from_splitted_env (environ : Environ) (name separator : str)
    : result value :=
  let value := getenv environ name in
  if negb (truthy value) then mret VNone
  else
    match value with
    | VStr value =>
        pieces ← Py.split value separator;
        let l := VList (VStr <$> stripped pieces) in
        mret (if truthy l then l else VNone)
    | _ => Raise TypeError
    end.

(** *** The segments as the specification words them

    Split on the separator, strip each piece, discard the pieces that are
    empty after stripping. *)
Definition pieces_of (s separator : str) : list str :=
  split_scan separator 0 [] s.

Definition segments (s separator : str) : list str :=
  filter (λ p, p ≠ []) (strip <$> pieces_of s separator).

(** What a destination slot contributes as prior contents: its list, or
    nothing when it is unset ([None], or any other false value). *)
Definition prior_contents (v : value) : option (list value) :=
  match v with
  | VList l => Some l
  | _ => if truthy v then None else Some []
  end.

End Actions.
Import Actions.

(** ** Option and ArgumentGroup objects

    Both are mutable and are shared between commands, so they live in an
    object store and are handled through their identity. *)

Module Specs.

Inductive object :=
  | OptionObj (args : list value) (kwargs : gmap string value)
  | ArgumentGroupObj (name : str) (options : list ref)
      (required is_mutually_exclusive : bool).

Abbreviation store := (gmap nat object) (only parsing).

Definition alloc (o : object) (σ : store) : ref * store :=
  let r := fresh (dom σ) in (r, <[r := o]> σ).

(** [Option(args.., kwargs..)] *)
Definition Option_init (args : list value) (kwargs : gmap string value)
    (σ : store) : ref * store :=
  alloc (OptionObj args kwargs) σ.

(** [ArgumentGroup(name, is_mutually_exclusive, required)]; it does not run
    [Option.__init__], so the instance has neither [args] nor [kwargs]. *)
Definition ArgumentGroup_init (name : str) (is_mutually_exclusive required : bool)
    (σ : store) : ref * store :=
  alloc (ArgumentGroupObj name [] required is_mutually_exclusive) σ.

(** [Option.__call__(self, func)]: the decorator form. *)
Definition Option_call (self : ref) (func : value) (σ : store)
    : result (value * store) :=
  match σ !! self with
  | Some (OptionObj args kwargs) =>
      let kwargs := <["callback" := func]> (<["action" := VCallbackAction]> kwargs) in
      mret (VRef self, <[self := OptionObj args kwargs]> σ)
  | _ => Raise AttributeError
  end.

(** [isinstance(v, Option)]; [ArgumentGroup] is a subclass of [Option]. *)
Definition isinstance_Option (σ : store) (v : value) : bool :=
  match v with
  | VRef r => bool_decide (is_Some (σ !! r))
  | _ => false
  end.

(** [self.options.append(option)] *)
Definition options_append (self : ref) (option : ref) (σ : store) : result store :=
  match σ !! self with
  | Some (ArgumentGroupObj name options required is_mutually_exclusive) =>
      mret (<[self :=
              ArgumentGroupObj name (options ++ [option]) required is_mutually_exclusive]> σ)
  | _ => Raise AttributeError
  end.

(** [args and isinstance(args[0], Option)]: the Option that comes first
    among the positional arguments, if one does. *)
Definition prebuilt (σ : store) (args : list value) : option ref :=
  match args with
  | VRef r :: _ => if isinstance_Option σ (VRef r) then Some r else None
  | _ => None
  end.

(** [ArgumentGroup.add_argument(self, *args, **kwargs)] *)
Definition add_argument (self : ref) (args : list value)
    (kwargs : gmap string value) (σ : store) : result store :=
  match prebuilt σ args with
  | Some option => options_append self option σ
  | None =>
      let '(option, σ) := Option_init args kwargs σ in
      options_append self option σ
  end.

(** The operations of the module that write to the object store. *)
Inductive op :=
  | NewOption (args : list value) (kwargs : gmap string value)
  | NewGroup (name : str) (is_mutually_exclusive required : bool)
  | Decorate (self : ref) (func : value)
  | AddArgument (self : ref) (args : list value) (kwargs : gmap string value)
  | OptionsAppend (self : ref) (option : ref).

Definition run_op (o : op) (σ : store) : result store :=
  match o with
  | NewOption args kwargs => mret (Option_init args kwargs σ).2
  | NewGroup name m r => mret (ArgumentGroup_init name m r σ).2
  | Decorate self func => '(_, σ) ← Option_call self func σ; mret σ
  | AddArgument self args kwargs => add_argument self args kwargs σ
  | OptionsAppend self option => options_append self option σ
  end.

Fixpoint run_ops (ops : list op) (σ : store) : result store :=
  match ops with
  | [] => mret σ
  | o :: ops => σ ← run_op o σ; run_ops ops σ
  end.

(** The action parameter and the bound handler of an Option. *)
Definition action_of (σ : store) (r : ref) : option value :=
  match σ !! r with
  | Some (OptionObj _ kwargs) => kwargs !! "action"
  | _ => None
  end.

Definition handler_of (σ : store) (r : ref) : option value :=
  match σ !! r with
  | Some (OptionObj _ kwargs) => kwargs !! "callback"
  | _ => None
  end.

Definition aliases_of (σ : store) (r : ref) : option (list value) :=
  match σ !! r with
  | Some (OptionObj args _) => Some args
  | _ => None
  end.

(** The handler the decorator applications in [ops] leave bound to [r],
    starting from [f]. *)
Fixpoint last_bound (r : ref) (f : value) (ops : list op) : value :=
  match ops with
  | [] => f
  | Decorate self g :: ops =>
      last_bound r (if bool_decide (self = r) then g else f) ops
  | _ :: ops => last_bound r f ops
  end.

End Specs.
Import Specs.

(** ** Registration against the grammar engine *)

Module Registry.

(** A specification as registration reads it: the object graph under an
    Option or ArgumentGroup, unfolded. Registration only reads the objects. *)
Inductive Spec :=
  | Option_ (args : list value) (kwargs : gmap string value)
  | ArgumentGroup_ (name : str) (options : list Spec)
      (required is_mutually_exclusive : bool).

(** The unfolding of the object [r], to depth [depth]. *)
Fixpoint unfold (depth : nat) (σ : gmap nat object) (r : ref) : option Spec :=
  match depth with
  | O => None
  | S depth =>
      match σ !! r with
      | Some (OptionObj args kwargs) => Some (Option_ args kwargs)
      | Some (ArgumentGroupObj name options required is_mutually_exclusive) =>
          options ← mapM (unfold depth σ) options;
          Some (ArgumentGroup_ name options required is_mutually_exclusive)
      | None => None
      end
  end.

(** The grammar engine ([argparse]) seen from this module: containers are
    numbered in the order they are created, and the engine keeps the calls it
    received. [add_argument_group] and [add_mutually_exclusive_group] return
    the new container. *)
Inductive call :=
  | add_argument_call (container : nat) (args : list value)
      (kwargs : gmap string value)
  | add_argument_group_call (container : nat) (title : str) (group : nat)
  | add_mutually_exclusive_group_call (container : nat) (required : bool)
      (group : nat).

Record engine := {
  next : nat;
  calls : list call;
}.

Definition add_argument (container : nat) (args : list value)
    (kwargs : gmap string value) (e : engine) : engine :=
  {| next := next e;
     calls := calls e ++ [add_argument_call container args kwargs] |}.

Definition add_argument_group (container : nat) (title : str) (e : engine)
    : nat * engine :=
  (next e,
   {| next := S (next e);
      calls := calls e ++ [add_argument_group_call container title (next e)] |}).

Definition add_mutually_exclusive_group (container : nat) (required : bool)
    (e : engine) : nat * engine :=
  (next e,
   {| next := S (next e);
      calls := calls e
               ++ [add_mutually_exclusive_group_call container required (next e)] |}).

(** [add_to_parser(self, parser)], for both classes. The loop of
    [ArgumentGroup.add_to_parser] calls [option.add_to_group(group)], which
    for either class does what [option.add_to_parser(group)] does (see
    [add_to_group] below). *)
Fixpoint add_to_parser (self : Spec) (parser : nat) (e : engine) : engine :=
  match self with
  | Option_ args kwargs => add_argument parser args kwargs e
  | ArgumentGroup_ name options required is_mutually_exclusive =>
      let '(group, e) :=
        if is_mutually_exclusive
        then add_mutually_exclusive_group parser required e
        else add_argument_group parser name e in
      (fix each (options : list Spec) (e : engine) : engine :=
         match options with
         | [] => e
         | option :: options => each options (add_to_parser option group e)
         end) options e
  end.

(** [add_to_group(self, group)]: [Option.add_to_group] registers the flag,
    [ArgumentGroup.add_to_group] is [self.add_to_parser(group)]. *)
Definition add_to_group (self : Spec) (group : nat) (e : engine) : engine :=
  match self with
  | Option_ args kwargs => add_argument group args kwargs e
  | ArgumentGroup_ _ _ _ _ => add_to_parser self group e
  end.

(** What a container holds, in the order it was registered. *)
Inductive entry :=
  | Argument (args : list value) (kwargs : gmap string value)
  | DisplayScope (title : str)
  | ExclusiveScope (required : bool).

Definition container_of (c : call) : nat :=
  match c with
  | add_argument_call container _ _ => container
  | add_argument_group_call container _ _ => container
  | add_mutually_exclusive_group_call container _ _ => container
  end.

Definition entry_of_call (c : call) : entry :=
  match c with
  | add_argument_call _ args kwargs => Argument args kwargs
  | add_argument_group_call _ title _ => DisplayScope title
  | add_mutually_exclusive_group_call _ required _ => ExclusiveScope required
  end.

Definition members (container : nat) (cs : list call) : list entry :=
  entry_of_call <$> filter (λ c, container_of c = container) cs.

Definition registered (container : nat) (e : engine) : list entry :=
  members container (calls e).

(** The entry a child is expected to leave in the scope it is registered
    into. *)
Definition entry_of (s : Spec) : entry :=
  match s with
  | Option_ args kwargs => Argument args kwargs
  | ArgumentGroup_ name _ required is_mutually_exclusive =>
      if is_mutually_exclusive then ExclusiveScope required
      else DisplayScope name
  end.

(** The call that creates the scope of a group inside [parser]. *)
Definition scope_call (name : str) (required is_mutually_exclusive : bool)
    (parser group : nat) : call :=
  if is_mutually_exclusive
  then add_mutually_exclusive_group_call parser required group
  else add_argument_group_call parser name group.

(** The engine once the scope of a group has been created in [parser]. *)
Definition with_scope (name : str) (required is_mutually_exclusive : bool)
    (parser : nat) (e : engine) : engine :=
  {| next := S (next e);
     calls := calls e
              ++ [scope_call name required is_mutually_exclusive parser (next e)] |}.

(** An engine in which every call went to a container that exists. *)
Definition well_formed (e : engine) : Prop :=
  Forall (λ c, container_of c < next e) (calls e).

(** What registering a specification into [parser] adds to the engine: one
    call on [parser], which leaves the entry of the specification there,
    then calls on containers created meanwhile. *)
Definition registers_one (s : Spec) : Prop :=
  ∀ parser e, ∃ c rest,
    calls (add_to_parser s parser e) = calls e ++ c :: rest
    ∧ container_of c = parser
    ∧ entry_of_call c = entry_of s
    ∧ Forall (λ c', next e ≤ container_of c') rest
    ∧ next e ≤ next (add_to_parser s parser e).

(** The parser before anything is registered: container 0 alone. *)
Definition fresh_parser : engine := {| next := 1; calls := [] |}.

End Registry.

(** ** Handlers and the execution of deferred invocations *)

Module Driver.

(** The execution context the handlers act on. *)
Record Project := {
  enable_write_lockfile : bool;
  warnings : list (list N);
}.

Record World := {
  project : Project;
  environ : gmap (list N) (list N);
  stdout : list (list N);
}.

(** A handler returns normally ([None]) or raises. *)
Abbreviation effect := (World * option exn)%type (only parsing).

Definition warn (message : str) (w : World) : World :=
  {| project := {| enable_write_lockfile := enable_write_lockfile (project w);
                   warnings := warnings (project w) ++ [message] |};
     environ := environ w;
     stdout := stdout w |}.

Definition set_enable_write_lockfile (b : bool) (w : World) : World :=
  {| project := {| enable_write_lockfile := b;
                   warnings := warnings (project w) |};
     environ := environ w;
     stdout := stdout w |}.

Definition set_environ (name value : str) (w : World) : World :=
  {| project := project w;
     environ := <[name := value]> (environ w);
     stdout := stdout w |}.

Definition print (line : str) (w : World) : World :=
  {| project := project w;
     environ := environ w;
     stdout := stdout w ++ [line] |}.

(** [option_string == literal] *)
Definition eq_text (v : value) (literal : str) : bool :=
  match v with
  | VStr s => bool_decide (s = literal)
  | _ => false
  end.

Section Handlers.

(** Modelled from the spec: [print_pep582_command] of [pdm.cli.actions] is
    missing from the sources; it is the facility that prints the shell
    command derived from the project and the shell name. *)
Variable pep582_command : Project → value → list N.

Definition print_pep582_command (w : World) (shell : value) : World :=
  print (pep582_command (project w) shell) w.

(** The functions of any other module that are used as callbacks. *)
Variable user_handler : nat → World → gmap string value → value → value → effect.

Definition frozen_lockfile_option (w : World) (namespace : Namespace)
    (values option_string : value) : effect :=
  let w :=
    if eq_text option_string (text "--no-lock")
    then warn (text "--no-lock is deprecated, use --frozen-lockfile instead.") w
    else w in
  (set_enable_write_lockfile false w, None).

Definition pep582_option (w : World) (namespace : Namespace)
    (values option_string : value) : effect :=
  let w := print_pep582_command w values in
  (w, Some (SystemExit 0)).

Definition no_isolation_option (w : World) (namespace : Namespace)
    (values option_string : value) : effect :=
  (set_environ (text "PDM_BUILD_ISOLATION") (text "no") w, None).

Definition ignore_python_option (w : World) (namespace : Namespace)
    (values option_string : value) : effect :=
  (set_environ (text "PDM_IGNORE_SAVED_PYTHON") (text "1") w, None).

Definition run_handler (f : handler) : World → Namespace → value → value → effect :=
  match f with
  | frozen_lockfile_fn => frozen_lockfile_option
  | pep582_fn => pep582_option
  | no_isolation_fn => no_isolation_option
  | ignore_python_fn => ignore_python_option
  | user_fn n => user_handler n
  end.

(** [callback(project, options)] on an element of the callbacks list. *)
Definition invoke (callback : value) (w : World) (options : Namespace) : effect :=
  match callback with
  | VPartial (VFunc f) values option_string =>
      run_handler f w options values option_string
  | _ => (w, Some TypeError)
  end.

(** Modelled from the spec: the command driver is missing from the sources.
    After parsing it iterates the deferred-invocation list in order and
    invokes each handler with the execution context; a termination raised
    inside a handler is immediate and final. The third component lists the
    invocations that were started. *)
Fixpoint run_callbacks (callbacks : list value) (w : World) (options : Namespace)
    : World * option exn * list value :=
  match callbacks with
  | [] => (w, None, [])
  | callback :: callbacks =>
      match invoke callback w options with
      | (w, None) =>
          let '(w, r, started) := run_callbacks callbacks w options in
          (w, r, callback :: started)
      | (w, Some e) => (w, Some e, [callback])
      end
  end.

End Handlers.

End Driver.

(** ** The callback-bound options of the catalog, as registered

    The actions the grammar engine builds from the four decorated Options:
    their aliases, the destination [argparse] derives for them, and the
    decorated function. *)

Module Catalog.

Definition frozen_lockfile_action : CallbackAction :=
  {| option_strings := [text "--frozen-lockfile"; text "--no-lock"];
     dest := "frozen_lockfile";
     callback := VFunc frozen_lockfile_fn |}.

Definition pep582_action : CallbackAction :=
  {| option_strings := [text "--pep582"];
     dest := "pep582";
     callback := VFunc pep582_fn |}.

Definition no_isolation_action : CallbackAction :=
  {| option_strings := [text "--no-isolation"];
     dest := "build_isolation";
     callback := VFunc no_isolation_fn |}.

Definition ignore_python_action : CallbackAction :=
  {| option_strings := [text "-I"; text "--ignore-python"];
     dest := "ignore_python";
     callback := VFunc ignore_python_fn |}.

(** [groups_group] and the [dev_group] nested in it: the arguments of the
    module-level calls (help texts left out), the calls themselves, and the
    specification they build. *)
Definition group_args : list value :=
  [VStr (text "-G"); VStr (text "--group"); VStr (text "--with")].
Definition group_kwargs : gmap string value :=
  {["dest" := VStr (text "groups");
    "metavar" := VStr (text "GROUP");
    "action" := VSplitList (text ",");
    "default" := VList []]}.

Definition without_args : list value := [VStr (text "--without")].
Definition without_kwargs : gmap string value :=
  {["dest" := VStr (text "excluded_groups");
    "metavar" := VStr (text "");
    "action" := VSplitList (text ",");
    "default" := VList []]}.

Definition no_default_args : list value := [VStr (text "--no-default")].
Definition no_default_kwargs : gmap string value :=
  {["dest" := VStr (text "default");
    "action" := VStr (text "store_false");
    "default" := VBool true]}.

Definition dev_args : list value := [VStr (text "-d"); VStr (text "--dev")].
Definition dev_kwargs : gmap string value :=
  {["default" := VNone;
    "dest" := VStr (text "dev");
    "action" := VStr (text "store_true")]}.

Definition prod_args : list value :=
  [VStr (text "--prod"); VStr (text "--production")].
Definition prod_kwargs : gmap string value :=
  {["dest" := VStr (text "dev");
    "action" := VStr (text "store_false")]}.

(** The objects get the identities 0 to 6 in the order they are created. *)
Definition build_groups_group : list op :=
  [NewGroup (text "Dependencies Selection") false false;
   AddArgument 0 group_args group_kwargs;
   AddArgument 0 without_args without_kwargs;
   AddArgument 0 no_default_args no_default_kwargs;
   NewGroup (text "dev") true false;
   AddArgument 4 dev_args dev_kwargs;
   AddArgument 4 prod_args prod_kwargs;
   OptionsAppend 0 4].

Definition group_option : Registry.Spec :=
  Registry.Option_ group_args group_kwargs.
Definition without_option : Registry.Spec :=
  Registry.Option_ without_args without_kwargs.
Definition no_default_option : Registry.Spec :=
  Registry.Option_ no_default_args no_default_kwargs.
Definition dev_option : Registry.Spec :=
  Registry.Option_ dev_args dev_kwargs.
Definition prod_option : Registry.Spec :=
  Registry.Option_ prod_args prod_kwargs.

Definition dev_group : Registry.Spec :=
  Registry.ArgumentGroup_ (text "dev") [dev_option; prod_option] false true.

Definition groups_group : Registry.Spec :=
  Registry.ArgumentGroup_ (text "Dependencies Selection")
    [group_option; without_option; no_default_option; dev_group] false false.

End Catalog.

(** ** Registration read off the object store

    [add_to_parser] and [add_to_group] as they run on the objects
    themselves: the method is looked up on the object, and a group walks the
    references it holds. [depth] bounds the nesting of the calls; without a
    result within the bound there is [None]. *)

Module OnStore.

Import Registry.

Fixpoint add_to_parser (depth : nat) (σ : gmap nat object) (self : ref)
    (parser : nat) (e : engine) : option engine :=
  match depth with
  | O => None
  | S depth =>
      match σ !! self with
      | Some (OptionObj args kwargs) => Some (add_argument parser args kwargs e)
      | Some (ArgumentGroupObj name options required is_mutually_exclusive) =>
          let '(group, e) :=
            if is_mutually_exclusive
            then add_mutually_exclusive_group parser required e
            else add_argument_group parser name e in
          foldl (λ acc option, e ← acc; add_to_parser depth σ option group e)
            (Some e) options
      | None => None
      end
  end.

End OnStore.

(** ** What a specification amounts to *)

Module Measure.

Import Registry.

(** The flags of a specification, in the order the tree lists them. *)
Fixpoint leaves (s : Spec) : list (list value * gmap string value) :=
  match s with
  | Option_ args kwargs => [(args, kwargs)]
  | ArgumentGroup_ _ options _ _ =>
      (fix each (options : list Spec) :=
         match options with
         | [] => []
         | option :: options => leaves option ++ each options
         end) options
  end.

(** The number of groups in a specification. *)
Fixpoint scopes (s : Spec) : nat :=
  match s with
  | Option_ _ _ => 0
  | ArgumentGroup_ _ options _ _ =>
      S ((fix each (options : list Spec) :=
            match options with
            | [] => 0
            | option :: options => scopes option + each options
            end) options)
  end.

(** The flags the engine was given, and the containers it created, in the
    order of the calls. *)
Definition arguments (cs : list call) : list (list value * gmap string value) :=
  omap (λ c, match c with
             | add_argument_call _ args kwargs => Some (args, kwargs)
             | _ => None
             end) cs.

Definition created (cs : list call) : list nat :=
  omap (λ c, match c with
             | add_argument_call _ _ _ => None
             | add_argument_group_call _ _ group => Some group
             | add_mutually_exclusive_group_call _ _ group => Some group
             end) cs.

(** What registering a specification adds: its flags, and one container per
    group. *)
Definition adds_its_leaves (s : Spec) : Prop :=
  ∀ parser e,
    arguments (calls (Registry.add_to_parser s parser e))
    = arguments (calls e) ++ leaves s
    ∧ created (calls (Registry.add_to_parser s parser e))
      = created (calls e) ++ seq (next e) (scopes s)
    ∧ next (Registry.add_to_parser s parser e) = next e + scopes s.

(** Registration keeps the engine well formed. *)
Definition keeps_well_formed (s : Spec) : Prop :=
  ∀ parser e,
    parser < next e → well_formed e →
    well_formed (Registry.add_to_parser s parser e)
    ∧ next e ≤ next (Registry.add_to_parser s parser e).

(** The handlers of the catalog that return to the driver. *)
Definition returns (f : handler) : Prop :=
  match f with
  | frozen_lockfile_fn | no_isolation_fn | ignore_python_fn => True
  | pep582_fn | user_fn _ => False
  end.

(** Positional arguments that do not start with an object. *)
Definition raw (args : list value) : Prop :=
  match args with
  | VRef _ :: _ => False
  | _ => True
  end.

End Measure.

(** * Properties *)

(** ** Text *)

Section Text.

Implicit Types s sep cur : list N.

Example split_example :
  split (text "a, b ,,c") (text ",")
  = Ok [text "a"; text " b "; text ""; text "c"].
Proof. reflexivity. Qed.

Example split_overlap_example :
  split (text "aaa") (text "aa") = Ok [text ""; text "a"].
Proof. reflexivity. Qed.

Example split_long_separator_example :
  split (text "x--y-z--") (text "--") = Ok [text "x"; text "y-z"; text ""].
Proof. reflexivity. Qed.

Example strip_example : strip (text "  b c ") = text "b c".
Proof. reflexivity. Qed.

Lemma startswith_spec sep s :
  startswith sep s = true → s = sep ++ drop (length sep) s.
Proof.
  revert s. induction sep as [|a sep IH]; intros [|b s]; simpl; try done.
  intros [Hab Hs]%andb_prop. apply N.eqb_eq in Hab as ->.
  f_equal. by apply IH.
Qed.

Lemma split_scan_nonempty sep k cur s : split_scan sep k cur s ≠ [].
Proof.
  revert k cur. induction s as [|c s IH]; intros k cur; simpl; [done|].
  destruct k; [|apply IH]. destruct (startswith sep (c :: s)); [done|apply IH].
Qed.

Lemma join_cons sep p ps :
  ps ≠ [] → join sep (p :: ps) = p ++ sep ++ join sep ps.
Proof. by destruct ps. Qed.

(** Joining the pieces with the separator gives the text back. *)
Lemma split_scan_join sep k cur s :
  sep ≠ [] → join sep (split_scan sep k cur s) = rev cur ++ drop k s.
Proof.
  intros Hsep. revert k cur.
  induction s as [|c s IH]; intros k cur.
  - simpl. by rewrite drop_nil, app_nil_r.
  - destruct k as [|k]; [|simpl; apply IH].
    cbn [split_scan]. destruct (startswith sep (c :: s)) eqn:Hsw.
    + rewrite join_cons by apply split_scan_nonempty.
      rewrite IH. simpl. f_equal.
      apply startswith_spec in Hsw.
      destruct sep as [|a sep]; [done|].
      simpl in Hsw. injection Hsw as -> Hs.
      simpl. rewrite Nat.sub_0_r. by rewrite <- Hs.
    + rewrite IH. simpl. by rewrite <- app_assoc.
Qed.

Lemma split_join s sep pieces :
  split s sep = Ok pieces → join sep pieces = s.
Proof.
  unfold split. destruct sep as [|a sep]; [done|].
  intros [= <-]. by rewrite split_scan_join.
Qed.

Lemma lstrip_starts_clean s : starts_clean (lstrip s).
Proof.
  induction s as [|c s IH]; simpl; [done|].
  destruct (isspace c) eqn:Hc; [done|]. simpl. done.
Qed.

Lemma lstrip_id s : starts_clean s → lstrip s = s.
Proof. destruct s as [|c s]; simpl; [done|]. by intros ->. Qed.

Lemma lstrip_suffix s : ∃ ws, s = ws ++ lstrip s.
Proof.
  induction s as [|c s [ws IH]]; simpl; [by exists []|].
  destruct (isspace c).
  - exists (c :: ws). simpl. by f_equal.
  - by exists [].
Qed.

Lemma rstrip_prefix s : ∃ ws, s = rstrip s ++ ws.
Proof.
  unfold rstrip. destruct (lstrip_suffix (rev s)) as [ws Hws].
  exists (rev ws). rewrite <- rev_app_distr, <- Hws. by rewrite rev_involutive.
Qed.

Lemma rstrip_starts_clean s : starts_clean s → starts_clean (rstrip s).
Proof.
  intros Hs. destruct (rstrip_prefix s) as [ws Hws].
  destruct (rstrip s) as [|c t]; [done|].
  rewrite Hws in Hs. done.
Qed.

Lemma rstrip_idemp s : rstrip (rstrip s) = rstrip s.
Proof.
  unfold rstrip. rewrite rev_involutive.
  by rewrite (lstrip_id (lstrip _)) by apply lstrip_starts_clean.
Qed.

(** A stripped text starts and ends clean: stripping it again changes
    nothing. *)
Lemma strip_idemp s : strip (strip s) = strip s.
Proof.
  unfold strip.
  rewrite (lstrip_id (rstrip _)).
  - apply rstrip_idemp.
  - apply rstrip_starts_clean, lstrip_starts_clean.
Qed.

Lemma strip_ends_clean s :
  starts_clean (strip s) ∧ starts_clean (rev (strip s)).
Proof.
  split.
  - apply rstrip_starts_clean, lstrip_starts_clean.
  - unfold strip, rstrip. rewrite rev_involutive. apply lstrip_starts_clean.
Qed.

End Text.

(** ** CallbackAction *)

Section CallbackActionFacts.

Implicit Types namespace ns : gmap string value.
Implicit Types actions : list CallbackAction.

Lemma CallbackAction_call_ok self ns values option_string :
  callbacks_ready ns →
  CallbackAction_call self ns values option_string
  = Ok (<["callbacks" :=
           VList (deferred ns ++ [VPartial (callback self) values option_string])]> ns).
Proof.
  unfold CallbackAction_call, hasattr, getattr, setattr, deferred.
  intros [Hnone | [l Hl]].
  - rewrite Hnone. rewrite bool_decide_eq_false_2 by (by intros [? ?]).
    simpl. rewrite lookup_insert_eq. simpl.
    by rewrite insert_insert_eq.
  - rewrite Hl. rewrite bool_decide_eq_true_2 by eauto.
    simpl. by rewrite Hl.
Qed.

Lemma deferred_insert ns l : deferred (<["callbacks" := VList l]> ns) = l.
Proof. unfold deferred. by rewrite lookup_insert_eq. Qed.

Lemma callbacks_ready_insert ns l :
  callbacks_ready (<["callbacks" := VList l]> ns).
Proof. right. exists l. apply lookup_insert_eq. Qed.

(** Two registered actions that answer to the same alias are the same
    action, when no alias is declared twice. *)
Lemma alias_owner_unique actions a b x :
  NoDup (concat (option_strings <$> actions)) →
  a ∈ actions → b ∈ actions →
  x ∈ option_strings a → x ∈ option_strings b → a = b.
Proof.
  induction actions as [|c actions IH]; simpl.
  - intros _ Ha. by apply elem_of_nil in Ha.
  - intros (_ & Hdisj & Hrest)%NoDup_app Ha Hb Hxa Hxb.
    assert (Hin : ∀ d, d ∈ actions → x ∈ option_strings d →
                       x ∈ concat (option_strings <$> actions)).
    { intros d Hd Hx. apply list_elem_of_In, in_concat.
      exists (option_strings d). split; apply list_elem_of_In; [|done].
      by apply list_elem_of_fmap_2. }
    apply elem_of_cons in Ha as [-> | Ha]; apply elem_of_cons in Hb as [-> | Hb].
    + done.
    + exfalso. eapply Hdisj; eauto.
    + exfalso. eapply Hdisj; eauto.
    + by apply IH.
Qed.

(** Which action an alias selects does not depend on the order in which
    the options were declared. *)
Lemma find_action_perm actions actions' x :
  NoDup (concat (option_strings <$> actions)) →
  actions' ≡ₚ actions →
  find_action actions' x = find_action actions x.
Proof.
  intros Hnd Hperm. unfold find_action.
  destruct (List.find _ actions) as [a|] eqn:Ha;
    destruct (List.find _ actions') as [b|] eqn:Hb; try done.
  - apply find_some in Ha as [Ha Hxa]. apply find_some in Hb as [Hb Hxb].
    apply bool_decide_eq_true in Hxa, Hxb.
    apply list_elem_of_In in Ha, Hb. rewrite Hperm in Hb.
    f_equal. by eapply alias_owner_unique.
  - apply find_some in Ha as [Ha Hxa].
    apply list_elem_of_In in Ha. rewrite <- Hperm in Ha.
    apply list_elem_of_In in Ha.
    by rewrite (find_none _ _ Hb _ Ha) in Hxa.
  - apply find_some in Hb as [Hb Hxb].
    apply list_elem_of_In in Hb. rewrite Hperm in Hb.
    apply list_elem_of_In in Hb.
    by rewrite (find_none _ _ Ha _ Hb) in Hxb.
Qed.

Lemma parse_args_perm actions actions' argv ns :
  NoDup (concat (option_strings <$> actions)) →
  actions' ≡ₚ actions →
  parse_args actions' argv ns = parse_args actions argv ns.
Proof.
  intros Hnd Hperm. revert ns.
  induction argv as [|[option_string values] argv IH]; intros ns; simpl; [done|].
  rewrite (find_action_perm actions actions') by done.
  destruct (find_action actions option_string) as [action|]; [|done].
  destruct (CallbackAction_call _ _ _ _); simpl; [apply IH|done].
Qed.

Lemma parse_args_ok actions argv ns :
  callbacks_ready ns →
  Forall (λ m, is_Some (find_action actions m.1)) argv →
  ∃ ns', parse_args actions argv ns = Ok ns'
    ∧ deferred ns' = deferred ns ++ (invocation actions <$> argv)
    ∧ (∀ name, name ≠ "callbacks" → ns' !! name = ns !! name).
Proof.
  intros Hready Hall. revert ns Hready.
  induction Hall as [|[option_string values] argv [action Hact] _ IH];
    intros ns Hready.
  - exists ns. simpl. by rewrite app_nil_r.
  - simpl in Hact. cbn [parse_args]. rewrite Hact.
    rewrite CallbackAction_call_ok by done. simpl.
    edestruct IH as (ns' & Hrun & Hdef & Hframe);
      [apply callbacks_ready_insert|].
    exists ns'. split; [done|]. split.
    + rewrite Hdef, deferred_insert. unfold invocation at 2. simpl.
      rewrite Hact. by rewrite <- app_assoc.
    + intros name Hname. rewrite Hframe by done. by rewrite lookup_insert_ne.
Qed.

End CallbackActionFacts.

(** C1. Each firing of a CallbackAction appends exactly one record to the
    end of the callbacks list of the parse result. Hence, after a parse in
    which callback-bound flags were matched, the list holds their deferred
    invocations in the order of the matches in argv, and permuting the
    declarations of the options changes nothing. *)
Theorem callbacks_follow_argv_order
    (actions : list CallbackAction) (argv : list (list N * value))
    (namespace : gmap string value) :
  callbacks_ready namespace →
  Forall (λ m, is_Some (find_action actions m.1)) argv →
  NoDup (concat (option_strings <$> actions)) →
  (∀ action ns values option_string,
      callbacks_ready ns →
      ∃ ns', CallbackAction_call action ns values option_string = Ok ns'
        ∧ callbacks_ready ns'
        ∧ deferred ns'
          = deferred ns ++ [VPartial (callback action) values option_string])
  ∧ ∃ namespace',
      parse_args actions argv namespace = Ok namespace'
      ∧ deferred namespace' = deferred namespace ++ (invocation actions <$> argv)
      ∧ ∀ actions', actions' ≡ₚ actions →
          parse_args actions' argv namespace = Ok namespace'
          ∧ invocation actions' <$> argv = invocation actions <$> argv.
Proof.
  intros Hready Hall Hnd. split.
  - intros action ns values option_string Hns.
    eexists. split; [by apply CallbackAction_call_ok|].
    split; [apply callbacks_ready_insert|apply deferred_insert].
  - destruct (parse_args_ok actions argv namespace Hready Hall)
      as (ns' & Hrun & Hdef & _).
    exists ns'. split; [done|]. split; [done|].
    intros actions' Hperm. split.
    + by rewrite (parse_args_perm actions actions').
    + apply list_fmap_ext. intros _ m _. unfold invocation.
      by rewrite (find_action_perm actions actions').
Qed.

(** C4. A firing of a CallbackAction assigns no destination slot, its own
    included: every attribute of the parse result other than [callbacks] is
    left as it was. Its only effect is on [callbacks], which is created when
    missing and receives one record at its end, binding the Option's handler
    to the parsed value and to the alias that matched. *)
Theorem CallbackAction_call_only_appends
    (self : CallbackAction) (namespace : gmap string value)
    (values option_string : value) :
  callbacks_ready namespace →
  ∃ namespace',
    CallbackAction_call self namespace values option_string = Ok namespace'
    ∧ (∀ name, name ≠ "callbacks" → namespace' !! name = namespace !! name)
    ∧ (dest self ≠ "callbacks" → namespace' !! dest self = namespace !! dest self)
    ∧ namespace' !! "callbacks"
      = Some (VList (deferred namespace
                     ++ [VPartial (callback self) values option_string])).
Proof.
  intros Hready. eexists. split; [by apply CallbackAction_call_ok|].
  split; [|split].
  - intros name Hname. by rewrite lookup_insert_ne.
  - intros Hdest. by rewrite lookup_insert_ne.
  - apply lookup_insert_eq.
Qed.

Lemma callbacks_follow_argv_order_witness :
  ∃ ns',
    parse_args [Catalog.ignore_python_action; Catalog.frozen_lockfile_action]
      [(text "--frozen-lockfile", VList []); (text "-I", VList [])] ∅ = Ok ns'
    ∧ deferred ns'
      = [VPartial (VFunc frozen_lockfile_fn) (VList []) (VStr (text "--frozen-lockfile"));
         VPartial (VFunc ignore_python_fn) (VList []) (VStr (text "-I"))].
Proof.
  destruct (callbacks_follow_argv_order
              [Catalog.ignore_python_action; Catalog.frozen_lockfile_action]
              [(text "--frozen-lockfile", VList []); (text "-I", VList [])] ∅)
    as [_ (ns' & Hrun & Hdef & _)].
  - left. apply lookup_empty.
  - repeat constructor; vm_compute; eauto.
  - apply (bool_decide_unpack _). vm_compute. exact I.
  - exists ns'. split; [exact Hrun|]. rewrite Hdef. reflexivity.
Defined.

Lemma CallbackAction_call_only_appends_witness :
  ∃ ns',
    CallbackAction_call Catalog.frozen_lockfile_action
      {["frozen_lockfile" := VNone]} (VList []) (VStr (text "--no-lock")) = Ok ns'
    ∧ ns' !! "frozen_lockfile" = Some VNone
    ∧ ns' !! "callbacks"
      = Some (VList [VPartial (VFunc frozen_lockfile_fn) (VList [])
                       (VStr (text "--no-lock"))]).
Proof.
  destruct (CallbackAction_call_only_appends Catalog.frozen_lockfile_action
              {["frozen_lockfile" := VNone]} (VList []) (VStr (text "--no-lock")))
    as (ns' & Hrun & Hframe & Hdest & Hcb).
  - left. reflexivity.
  - exists ns'. split; [exact Hrun|]. split; [|exact Hcb].
    etrans; [apply Hdest; discriminate|reflexivity].
Defined.

(** ** split_lists and from_splitted_env *)

Section SplitFacts.

Implicit Types args : gmap string value.
Implicit Types s separator : list N.

(** The comprehension of the source and the wording of the specification
    select the same segments. *)
Lemma stripped_filter (pieces : list (list N)) :
  stripped pieces = filter (λ p, p ≠ []) (strip <$> pieces).
Proof.
  induction pieces as [|p pieces IH]; [done|].
  cbn [stripped fmap list_fmap]. rewrite filter_cons. simpl.
  destruct (decide (strip p ≠ [])) as [Hp|Hp].
  - rewrite bool_decide_eq_false_2 by done. simpl. by rewrite IH.
  - apply dec_stable in Hp. rewrite bool_decide_eq_true_2 by done. simpl.
    by rewrite IH.
Qed.

Lemma split_ok s separator :
  separator ≠ [] → split s separator = Ok (pieces_of s separator).
Proof. by destruct separator. Qed.

Lemma split_empty_separator s : split s [] = Raise ValueError.
Proof. done. Qed.

(** Every segment is non-empty and carries no surrounding whitespace. *)
Lemma segments_trimmed s separator :
  Forall (λ p, p ≠ [] ∧ strip p = p) (segments s separator).
Proof.
  unfold segments. apply Forall_forall. intros p Hp.
  apply list_elem_of_filter in Hp as [Hne Hp].
  apply list_elem_of_fmap in Hp as (q & -> & _).
  split; [done|apply strip_idemp].
Qed.

Lemma segments_empty_text separator : separator ≠ [] → segments [] separator = [].
Proof. done. Qed.

Lemma prior_contents_split v prior :
  prior_contents v = Some prior →
  (if truthy v then v else VList []) = VList prior.
Proof.
  destruct v as [| [] | z | s | l | | | | |]; simpl; try congruence.
  - destruct (z =? 0)%Z; simpl; congruence.
  - destruct (bool_decide (s = [])); simpl; congruence.
  - intros [= <-]. by destruct l.
Qed.

Lemma SplitList_call_text separator dest args s v prior :
  separator ≠ [] →
  args !! dest = Some v →
  prior_contents v = Some prior →
  SplitList_call separator dest args (VStr s)
  = Ok (<[dest := VList (prior ++ (VStr <$> segments s separator))]> args).
Proof.
  intros Hsep Hv Hprior. unfold SplitList_call, getattr. rewrite Hv. simpl.
  rewrite (prior_contents_split _ _ Hprior).
  rewrite split_ok by done. simpl. by rewrite stripped_filter.
Qed.

Lemma from_splitted_env_eq (environ : gmap (list N) (list N)) name separator :
  separator ≠ [] →
  from_splitted_env environ name separator
  = Ok match environ !! name with
       | None => VNone
       | Some v =>
           match segments v separator with
           | [] => VNone
           | _ :: _ => VList (VStr <$> segments v separator)
           end
       end.
Proof.
  intros Hsep. unfold from_splitted_env, getenv.
  destruct (environ !! name) as [[|c v]|]; [done| |done].
  simpl. rewrite split_ok by done. simpl. rewrite stripped_filter.
  fold (segments (c :: v) separator).
  by destruct (segments (c :: v) separator).
Qed.

End SplitFacts.

(** C7. When the matched value is not text, the split-accumulate action
    returns without touching the parse result: no slot changes, and a
    destination that is unset, or even missing, is not initialised. *)
Theorem split_lists_non_text_noop
    (separator : list N) (dest : string) (args : gmap string value)
    (values : value) :
  (∀ s, values ≠ VStr s) →
  SplitList_call separator dest args values = Ok args.
Proof.
  intros Hnot. destruct values; try done. by destruct (Hnot s).
Qed.

Lemma split_lists_non_text_noop_witness :
  SplitList_call (text ",") "groups" {["groups" := VNone]} VNone
  = Ok {["groups" := VNone]}.
Proof.
  apply (split_lists_non_text_noop (text ",") "groups" {["groups" := VNone]} VNone).
  intros s. discriminate.
Defined.

(** C2, as amended. For every text, every non-empty separator and every
    destination slot that holds a list or is unset, one invocation of the
    split-accumulate action sets the destination to the prior list (the
    empty one when unset) followed by the segments of the text: the pieces
    between separators, stripped, without the empty ones, in order. Nothing
    of the prior contents is lost, so a second invocation concatenates; no
    other slot changes; and splitting "a, b ,,c" on "," gives a, b, c. *)
Theorem split_lists_accumulates
    (separator : list N) (dest : string) (args : gmap string value)
    (s : list N) (v : value) (prior : list value) :
  separator ≠ [] →
  args !! dest = Some v →
  prior_contents v = Some prior →
  ∃ args',
    SplitList_call separator dest args (VStr s) = Ok args'
    ∧ args' !! dest = Some (VList (prior ++ (VStr <$> segments s separator)))
    ∧ (∀ other, other ≠ dest → args' !! other = args !! other)
    ∧ Forall (λ p, p ≠ [] ∧ strip p = p) (segments s separator)
    ∧ (∀ s2, ∃ args'',
          SplitList_call separator dest args' (VStr s2) = Ok args''
          ∧ args'' !! dest
            = Some (VList (prior ++ (VStr <$> segments s separator)
                                 ++ (VStr <$> segments s2 separator))))
    ∧ segments (text "a, b ,,c") (text ",") = [text "a"; text "b"; text "c"].
Proof.
  intros Hsep Hv Hprior. eexists.
  split; [by eapply SplitList_call_text|].
  split; [apply lookup_insert_eq|].
  split; [intros other Hother; by rewrite lookup_insert_ne|].
  split; [apply segments_trimmed|].
  split; [|reflexivity].
  intros s2. eexists. split.
  - eapply SplitList_call_text; [done|apply lookup_insert_eq|done].
  - rewrite lookup_insert_eq. by rewrite <- app_assoc.
Qed.

Lemma split_lists_accumulates_witness :
  ∃ args',
    SplitList_call (text ",") "groups" {["groups" := VList [VStr (text "dev")]]}
      (VStr (text "a, b ,,c")) = Ok args'
    ∧ args' !! "groups"
      = Some (VList [VStr (text "dev"); VStr (text "a"); VStr (text "b");
                     VStr (text "c")]).
Proof.
  destruct (split_lists_accumulates (text ",") "groups"
              {["groups" := VList [VStr (text "dev")]]} (text "a, b ,,c")
              (VList [VStr (text "dev")]) [VStr (text "dev")])
    as (args' & Hrun & Hdest & _).
  - discriminate.
  - reflexivity.
  - reflexivity.
  - exists args'. split; [exact Hrun|]. rewrite Hdest. reflexivity.
Defined.

(** C2 as stated fails for the empty separator: [str.split] rejects it, the
    action raises and the destination is not set. *)
Lemma split_lists_empty_separator_raises :
  SplitList_call [] "groups" {["groups" := VList []]} (VStr (text "a,b"))
  = Raise ValueError
  ∧ ¬ ∃ args',
        SplitList_call [] "groups" {["groups" := VList []]} (VStr (text "a,b"))
        = Ok args'.
Proof.
  split; [reflexivity|]. intros [args' H]. discriminate H.
Qed.

(** C3, as amended. For every environment, variable name and non-empty
    separator, the helper returns None when the variable is missing, when
    it is empty, and when none of its pieces survives stripping; otherwise
    it returns the list of its segments, which is not empty. It never
    returns an empty list. *)
Theorem from_splitted_env_spec
    (environ : gmap (list N) (list N)) (name separator : list N) :
  separator ≠ [] →
  (environ !! name = None → from_splitted_env environ name separator = Ok VNone)
  ∧ (environ !! name = Some [] →
       from_splitted_env environ name separator = Ok VNone)
  ∧ (∀ v, environ !! name = Some v → segments v separator = [] →
       from_splitted_env environ name separator = Ok VNone)
  ∧ (∀ v, environ !! name = Some v → segments v separator ≠ [] →
       from_splitted_env environ name separator
       = Ok (VList (VStr <$> segments v separator))
       ∧ Forall (λ p, p ≠ [] ∧ strip p = p) (segments v separator))
  ∧ from_splitted_env environ name separator ≠ Ok (VList []).
Proof.
  intros Hsep. rewrite from_splitted_env_eq by done.
  split; [by intros ->|].
  split; [by intros ->|].
  split; [by intros v -> ->|].
  split.
  - intros v -> Hne. split; [|apply segments_trimmed].
    by destruct (segments v separator).
  - destruct (environ !! name) as [v|]; [|done].
    by destruct (segments v separator).
Qed.

Lemma from_splitted_env_spec_witness :
  from_splitted_env {[text "PDM_SKIP_HOOKS" := text " pre_build , ,post_build"]}
    (text "PDM_SKIP_HOOKS") (text ",")
  = Ok (VList [VStr (text "pre_build"); VStr (text "post_build")]).
Proof.
  destruct (from_splitted_env_spec
              {[text "PDM_SKIP_HOOKS" := text " pre_build , ,post_build"]}
              (text "PDM_SKIP_HOOKS") (text ","))
    as (_ & _ & _ & Hsome & _).
  - discriminate.
  - destruct (Hsome (text " pre_build , ,post_build")) as [Hrun _].
    + reflexivity.
    + discriminate.
    + exact Hrun.
Defined.

(** C3 as stated fails for the empty separator: on a variable that is set
    and not empty the helper raises instead of returning. *)
Lemma from_splitted_env_empty_separator_raises :
  from_splitted_env {[text "PDM_SKIP_HOOKS" := text "a,b"]}
    (text "PDM_SKIP_HOOKS") []
  = Raise ValueError
  ∧ ¬ ∃ r,
        from_splitted_env {[text "PDM_SKIP_HOOKS" := text "a,b"]}
          (text "PDM_SKIP_HOOKS") []
        = Ok r.
Proof.
  split; [reflexivity|]. intros [r H]. discriminate H.
Qed.

(** ** Option and ArgumentGroup objects *)

Section SpecFacts.

Implicit Types σ : gmap nat object.
Implicit Types kwargs : gmap string value.

Lemma alloc_fresh o σ : σ !! (alloc o σ).1 = None.
Proof. simpl. apply not_elem_of_dom, is_fresh. Qed.

Lemma alloc_lookup o σ : (alloc o σ).2 !! (alloc o σ).1 = Some o.
Proof. simpl. apply lookup_insert_eq. Qed.

(** Allocation leaves the objects that exist alone. *)
Lemma alloc_frame o σ r o' : σ !! r = Some o' → (alloc o σ).2 !! r = Some o'.
Proof.
  intros Hr. simpl. rewrite lookup_insert_ne; [done|].
  intros <-. pose proof (alloc_fresh o σ) as Hfresh. simpl in Hfresh. congruence.
Qed.

(** Appending a child writes to the group only. *)
Lemma options_append_frame self option σ σ' r args kwargs :
  options_append self option σ = Ok σ' →
  σ !! r = Some (OptionObj args kwargs) →
  σ' !! r = Some (OptionObj args kwargs).
Proof.
  unfold options_append. intros Hrun Hr.
  destruct (σ !! self) as [[|name options required mutex]|] eqn:Hself;
    try done.
  injection Hrun as <-. rewrite lookup_insert_ne; [done|].
  intros <-. congruence.
Qed.

Lemma add_argument_frame self args0 kwargs0 σ σ' r args kwargs :
  add_argument self args0 kwargs0 σ = Ok σ' →
  σ !! r = Some (OptionObj args kwargs) →
  σ' !! r = Some (OptionObj args kwargs).
Proof.
  intros Hrun Hr. unfold add_argument in Hrun.
  destruct (prebuilt σ args0) as [option|].
  - by eapply options_append_frame.
  - unfold Option_init in Hrun.
    destruct (alloc (OptionObj args0 kwargs0) σ) as [o σ2] eqn:Halloc.
    eapply options_append_frame; [exact Hrun|].
    replace σ2 with (alloc (OptionObj args0 kwargs0) σ).2 by by rewrite Halloc.
    by apply alloc_frame.
Qed.

(** What one operation does to an Option: nothing, unless it is the
    decorator form applied to that very Option. *)
Lemma run_op_option o σ σ' r args kwargs :
  run_op o σ = Ok σ' →
  σ !! r = Some (OptionObj args kwargs) →
  σ' !! r
  = Some (OptionObj args
            match o with
            | Decorate self func =>
                if bool_decide (self = r)
                then <["callback" := func]> (<["action" := VCallbackAction]> kwargs)
                else kwargs
            | _ => kwargs
            end).
Proof.
  intros Hrun Hr. destruct o as [a k|name m q|self func|self a k|self option];
    simpl in Hrun.
  - injection Hrun as <-. by apply (alloc_frame (OptionObj a k)).
  - injection Hrun as <-. by apply (alloc_frame (ArgumentGroupObj name [] q m)).
  - unfold Option_call in Hrun.
    destruct (σ !! self) as [[args1 kwargs1|]|] eqn:Hself; try done.
    simpl in Hrun. injection Hrun as <-.
    case_bool_decide as Heq.
    + subst self. rewrite lookup_insert_eq. congruence.
    + by rewrite lookup_insert_ne.
  - by eapply add_argument_frame.
  - by eapply options_append_frame.
Qed.

Lemma run_ops_option ops σ σ' r args kwargs f :
  run_ops ops σ = Ok σ' →
  σ !! r = Some (OptionObj args kwargs) →
  kwargs !! "action" = Some VCallbackAction →
  kwargs !! "callback" = Some f →
  ∃ kwargs',
    σ' !! r = Some (OptionObj args kwargs')
    ∧ kwargs' !! "action" = Some VCallbackAction
    ∧ kwargs' !! "callback" = Some (last_bound r f ops).
Proof.
  revert σ kwargs f. induction ops as [|o ops IH]; intros σ kwargs f Hrun Hr Ha Hc.
  - injection Hrun as <-. by exists kwargs.
  - cbn [run_ops] in Hrun.
    destruct (run_op o σ) as [σ1|] eqn:Hop; [|done]. simpl in Hrun.
    pose proof (run_op_option _ _ _ _ _ _ Hop Hr) as Hr1.
    destruct o as [| |self func| |]; simpl; try by eapply IH.
    case_bool_decide as Heq.
    + eapply IH; [done..| |]; by simplify_map_eq.
    + by eapply IH.
Qed.

End SpecFacts.

(** C5. Applying an Option as a decorator returns the very instance it was
    applied to, and creates no other object. Afterwards the instance has
    the CallbackAction class as its action parameter and the handler as its
    callback; its aliases and its other parameters are as before, and so is
    every other object. *)
Theorem Option_call_returns_self
    (self : nat) (func : value) (σ : gmap nat object)
    (args : list value) (kwargs : gmap string value) :
  σ !! self = Some (OptionObj args kwargs) →
  ∃ σ' kwargs',
    Option_call self func σ = Ok (VRef self, σ')
    ∧ σ' !! self = Some (OptionObj args kwargs')
    ∧ action_of σ' self = Some VCallbackAction
    ∧ handler_of σ' self = Some func
    ∧ aliases_of σ' self = aliases_of σ self
    ∧ (∀ k, k ≠ "action" → k ≠ "callback" → kwargs' !! k = kwargs !! k)
    ∧ (∀ r, r ≠ self → σ' !! r = σ !! r)
    ∧ dom σ' = dom σ.
Proof.
  intros Hself. unfold Option_call, action_of, handler_of, aliases_of.
  rewrite Hself. do 2 eexists. split; [reflexivity|].
  rewrite lookup_insert_eq.
  repeat split; try by simplify_map_eq.
  - intros k Ha Hc. by simplify_map_eq.
  - intros r Hr. by simplify_map_eq.
  - rewrite dom_insert_L. apply elem_of_dom_2 in Hself.
    by apply subseteq_union_1_L, singleton_subseteq_l.
Qed.

Lemma Option_call_returns_self_witness :
  ∃ σ',
    Option_call 0 (VFunc pep582_fn)
      {[0 := OptionObj [VStr (text "--pep582")] {["const" := VStr (text "AUTO")]}]}
    = Ok (VRef 0, σ')
    ∧ handler_of σ' 0 = Some (VFunc pep582_fn).
Proof.
  destruct (Option_call_returns_self 0 (VFunc pep582_fn)
              {[0 := OptionObj [VStr (text "--pep582")]
                       {["const" := VStr (text "AUTO")]}]}
              [VStr (text "--pep582")] {["const" := VStr (text "AUTO")]})
    as (σ' & kwargs' & Hrun & _ & _ & Hhandler & _).
  - reflexivity.
  - exists σ'. split; [exact Hrun|exact Hhandler].
Defined.

(** C10. When the first positional argument of [add_argument] is an Option
    (or a group, which is one), that very object is appended to the children
    of the group; the other positional arguments and the keyword arguments
    play no part, no object is created and nothing is raised. *)
Theorem add_argument_prebuilt
    (self option : nat) (rest : list value) (kwargs : gmap string value)
    (σ : gmap nat object) (name : list N) (options : list nat)
    (required is_mutually_exclusive : bool) :
  σ !! self
  = Some (ArgumentGroupObj name options required is_mutually_exclusive) →
  is_Some (σ !! option) →
  add_argument self (VRef option :: rest) kwargs σ
  = Ok (<[self := ArgumentGroupObj name (options ++ [option]) required
                    is_mutually_exclusive]> σ)
  ∧ add_argument self (VRef option :: rest) kwargs σ
    = add_argument self [VRef option] ∅ σ.
Proof.
  intros Hself Hopt. unfold add_argument, prebuilt, isinstance_Option.
  rewrite bool_decide_eq_true_2 by done.
  unfold options_append. by rewrite Hself.
Qed.

Lemma add_argument_prebuilt_witness :
  add_argument 1 [VRef 0; VStr (text "--ignored")] {["help" := VStr (text "ignored")]}
    {[0 := OptionObj [VStr (text "--no-isolation")] ∅;
      1 := ArgumentGroupObj (text "Install options") [] false false]}
  = Ok (<[1 := ArgumentGroupObj (text "Install options") [0] false false]>
          {[0 := OptionObj [VStr (text "--no-isolation")] ∅;
            1 := ArgumentGroupObj (text "Install options") [] false false]}).
Proof.
  apply (add_argument_prebuilt 1 0 [VStr (text "--ignored")]
           {["help" := VStr (text "ignored")]}
           {[0 := OptionObj [VStr (text "--no-isolation")] ∅;
             1 := ArgumentGroupObj (text "Install options") [] false false]}
           (text "Install options") [] false false).
  - reflexivity.
  - eexists. reflexivity.
Defined.

Lemma last_bound_untouched (self : nat) (f : value) (ops : list op) :
  Forall (λ o, ∀ g, o ≠ Decorate self g) ops → last_bound self f ops = f.
Proof.
  induction 1 as [|o ops Ho _ IH]; [done|].
  destruct o as [| |r g| |]; simpl; try done.
  case_bool_decide as Heq; [|done]. subst r. by destruct (Ho g).
Qed.

(** C9, as amended. Once an Option is bound as a callback, its action
    parameter stays the CallbackAction class and its aliases stay the same
    under every sequence of operations of the module. Its handler is not
    changed by creating options or groups nor by adding it, or anything
    else, to a group; but the decorator form is not limited to one use:
    every further application to the Option rebinds the handler, so the
    handler bound at the end is the one of the last application. *)
Theorem callback_binding_follows_decorations
    (self : nat) (f : value) (ops : list op) (σ σ' : gmap nat object) :
  action_of σ self = Some VCallbackAction →
  handler_of σ self = Some f →
  run_ops ops σ = Ok σ' →
  action_of σ' self = Some VCallbackAction
  ∧ handler_of σ' self = Some (last_bound self f ops)
  ∧ aliases_of σ' self = aliases_of σ self
  ∧ (Forall (λ o, ∀ g, o ≠ Decorate self g) ops → handler_of σ' self = Some f).
Proof.
  unfold action_of, handler_of, aliases_of. intros Ha Hc Hrun.
  destruct (σ !! self) as [[args kwargs|]|] eqn:Hself; try done.
  destruct (run_ops_option ops σ σ' self args kwargs f Hrun Hself Ha Hc)
    as (kwargs' & -> & Ha' & Hc').
  repeat split; try done.
  intros Hnone. by rewrite Hc', last_bound_untouched.
Qed.

Lemma callback_binding_follows_decorations_witness :
  ∃ σ',
    run_ops [NewGroup (text "Install options") false false;
             AddArgument 1 [VRef 0] ∅;
             Decorate 0 (VFunc ignore_python_fn)]
      {[0 := OptionObj [VStr (text "--no-isolation")]
               {["action" := VCallbackAction;
                 "callback" := VFunc no_isolation_fn]}]}
    = Ok σ'
    ∧ action_of σ' 0 = Some VCallbackAction
    ∧ handler_of σ' 0 = Some (VFunc ignore_python_fn).
Proof.
  eexists. split; [vm_compute; reflexivity|].
  edestruct (callback_binding_follows_decorations 0 (VFunc no_isolation_fn)
              [NewGroup (text "Install options") false false;
               AddArgument 1 [VRef 0] ∅;
               Decorate 0 (VFunc ignore_python_fn)]
              {[0 := OptionObj [VStr (text "--no-isolation")]
                       {["action" := VCallbackAction;
                         "callback" := VFunc no_isolation_fn]}]})
    as (Haction & Hhandler & _).
  - reflexivity.
  - reflexivity.
  - vm_compute. reflexivity.
  - split; [exact Haction|exact Hhandler].
Defined.

(** C9 as stated fails: a second application of the decorator form to the
    same Option replaces the handler bound by the first. *)
Lemma decorator_rebinds_handler :
  ∃ σ1 σ2,
    Option_call 0 (VFunc frozen_lockfile_fn)
      {[0 := OptionObj [VStr (text "--frozen-lockfile")] ∅]}
    = Ok (VRef 0, σ1)
    ∧ handler_of σ1 0 = Some (VFunc frozen_lockfile_fn)
    ∧ Option_call 0 (VFunc ignore_python_fn) σ1 = Ok (VRef 0, σ2)
    ∧ handler_of σ2 0 = Some (VFunc ignore_python_fn)
    ∧ handler_of σ2 0 ≠ handler_of σ1 0.
Proof.
  do 2 eexists.
  split; [reflexivity|]. split; [reflexivity|].
  split; [reflexivity|]. split; [reflexivity|].
  vm_compute. discriminate.
Qed.

(** ** Registration *)

Section RegistryFacts.

Import Registry.

Implicit Types e : engine.
Implicit Types cs : list call.

Lemma Spec_nested_ind (P : Spec → Prop) :
  (∀ args kwargs, P (Option_ args kwargs)) →
  (∀ name options required m,
      Forall P options → P (ArgumentGroup_ name options required m)) →
  ∀ s, P s.
Proof.
  intros Hopt Hgrp. fix IH 1. intros [args kwargs|name options required m].
  - apply Hopt.
  - apply Hgrp. induction options as [|o options IHo]; constructor.
    + apply IH.
    + apply IHo.
Qed.

(** For either class [add_to_group] does what [add_to_parser] does. *)
Lemma add_to_group_eq (s : Spec) group e :
  add_to_group s group e = add_to_parser s group e.
Proof. by destruct s. Qed.

(** [ArgumentGroup.add_to_parser] as the source writes it: create the
    scope, then [add_to_group] every child into it, in order. *)
Lemma add_to_parser_group name options required m parser e :
  add_to_parser (ArgumentGroup_ name options required m) parser e
  = foldl (λ e' option, add_to_group option (next e) e')
      (with_scope name required m parser e) options.
Proof.
  assert (Hloop : ∀ group e1,
    (fix each (options : list Spec) (e : engine) : engine :=
       match options with
       | [] => e
       | option :: options => each options (add_to_parser option group e)
       end) options e1
    = foldl (λ e' option, add_to_group option group e') e1 options).
  { intros group. induction options as [|o options IH]; intros e1; [done|].
    simpl. rewrite IH. by rewrite add_to_group_eq. }
  unfold with_scope, scope_call. simpl. destruct m; simpl; apply Hloop.
Qed.

Lemma members_app container cs1 cs2 :
  members container (cs1 ++ cs2) = members container cs1 ++ members container cs2.
Proof. unfold members. by rewrite filter_app, fmap_app. Qed.

Lemma members_elsewhere container cs :
  Forall (λ c, container_of c ≠ container) cs → members container cs = [].
Proof.
  unfold members. induction 1 as [|c cs Hc _ IH]; [done|].
  rewrite filter_cons. by destruct (decide (container_of c = container)).
Qed.

Lemma members_here container c :
  container_of c = container → members container [c] = [entry_of_call c].
Proof.
  intros Hc. unfold members. rewrite filter_cons.
  by destruct (decide (container_of c = container)).
Qed.

(** The loop over the children of a group, which are registered into the
    scope [group] that exists already. *)
Lemma register_children options group e :
  Forall registers_one options →
  group < next e →
  ∃ cs,
    calls (foldl (λ e' option, add_to_group option group e') e options)
    = calls e ++ cs
    ∧ members group cs = entry_of <$> options
    ∧ Forall (λ c, group ≤ container_of c) cs
    ∧ next e ≤ next (foldl (λ e' option, add_to_group option group e') e options).
Proof.
  intros Hall. revert e. induction Hall as [|o options Ho _ IH]; intros e Hgroup.
  - exists []. simpl. by rewrite app_nil_r.
  - simpl. rewrite add_to_group_eq.
    destruct (Ho group e) as (c & rest & Hcalls & Hc & Hentry & Hrest & Hnext).
    destruct (IH (add_to_parser o group e)) as (cs & Hcs & Hmem & Hge & Hnext');
      [lia|].
    exists (c :: rest ++ cs). split; [|split; [|split]].
    + rewrite Hcs, Hcalls. by rewrite <- app_assoc.
    + change (c :: rest ++ cs) with ([c] ++ rest ++ cs).
      rewrite !members_app, (members_here _ _ Hc), Hentry, Hmem.
      rewrite (members_elsewhere group rest); [done|].
      eapply Forall_impl; [exact Hrest|]. simpl. lia.
    + constructor; [lia|]. apply Forall_app. split; [|done].
      eapply Forall_impl; [exact Hrest|]. simpl. lia.
    + lia.
Qed.

Lemma add_to_parser_registers_one (s : Spec) : registers_one s.
Proof.
  induction s as [args kwargs|name options required m IH] using Spec_nested_ind;
    intros parser e.
  - exists (add_argument_call parser args kwargs), []. simpl. by repeat split.
  - rewrite add_to_parser_group.
    destruct (register_children options (next e)
                (with_scope name required m parser e) IH)
      as (cs & Hcs & _ & Hge & Hnext); [simpl; lia|].
    exists (scope_call name required m parser (next e)), cs.
    split; [|split; [|split; [|split]]].
    + rewrite Hcs. simpl. by rewrite <- app_assoc.
    + by destruct m.
    + by destruct m.
    + done.
    + simpl in Hnext. lia.
Qed.

End RegistryFacts.

(** C6. [add_to_parser] of a group first creates its scope in the parser: a
    mutually-exclusive one that carries the group's required flag when the
    group is marked mutually exclusive, a display scope with the group's
    name (and no flag) otherwise. It then registers every child into that
    scope, so that the scope holds the children's entries in insertion
    order, a nested group appearing there as its own scope. [add_to_group]
    of a group does the same. *)
Theorem add_to_parser_group_registers
    (name : list N) (options : list Registry.Spec)
    (required is_mutually_exclusive : bool)
    (parser : nat) (e : Registry.engine) :
  parser < Registry.next e →
  Registry.well_formed e →
  let self := Registry.ArgumentGroup_ name options required is_mutually_exclusive in
  let group := Registry.next e in
  let e' := Registry.add_to_parser self parser e in
  (∃ rest,
      Registry.calls e'
      = Registry.calls e
        ++ (if is_mutually_exclusive
            then Registry.add_mutually_exclusive_group_call parser required group
            else Registry.add_argument_group_call parser name group) :: rest)
  ∧ Registry.registered group e' = Registry.entry_of <$> options
  ∧ Registry.registered parser e'
    = Registry.registered parser e
      ++ [if is_mutually_exclusive then Registry.ExclusiveScope required
          else Registry.DisplayScope name]
  ∧ e' = foldl (λ e1 option, Registry.add_to_group option group e1)
           (Registry.with_scope name required is_mutually_exclusive parser e)
           options
  ∧ Registry.add_to_group self parser e = e'.
Proof.
  intros Hparser Hwf self group e'. subst self group e'.
  rewrite add_to_parser_group.
  destruct (register_children options (Registry.next e)
              (Registry.with_scope name required is_mutually_exclusive parser e))
    as (cs & Hcs & Hmem & Hge & _).
  { apply Forall_forall. intros s _. apply add_to_parser_registers_one. }
  { simpl. lia. }
  assert (Hold : ∀ container, Registry.next e ≤ container →
                 Registry.members container (Registry.calls e) = []).
  { intros container Hc. apply members_elsewhere.
    eapply Forall_impl; [exact Hwf|]. simpl. lia. }
  simpl in Hcs. rewrite <- app_assoc in Hcs. simpl in Hcs.
  split; [|split; [|split; [|split]]].
  - exists cs. rewrite Hcs. by destruct is_mutually_exclusive.
  - unfold Registry.registered. rewrite Hcs.
    change (?c :: cs) with ([c] ++ cs). rewrite !members_app, Hmem.
    rewrite Hold by lia.
    rewrite (members_elsewhere _ [_]); [done|].
    constructor; [|done]. destruct is_mutually_exclusive; simpl; lia.
  - unfold Registry.registered. rewrite Hcs.
    change (?c :: cs) with ([c] ++ cs). rewrite !members_app.
    rewrite (members_elsewhere parser cs).
    + rewrite app_nil_r. f_equal. rewrite members_here.
      * by destruct is_mutually_exclusive.
      * by destruct is_mutually_exclusive.
    + eapply Forall_impl; [exact Hge|]. simpl. lia.
  - reflexivity.
  - by rewrite add_to_group_eq, add_to_parser_group.
Qed.

Lemma add_to_parser_group_registers_witness :
  Registry.registered 1
    (Registry.add_to_parser Catalog.groups_group 0 Registry.fresh_parser)
  = [Registry.entry_of Catalog.group_option;
     Registry.entry_of Catalog.without_option;
     Registry.entry_of Catalog.no_default_option;
     Registry.ExclusiveScope false]
  ∧ Registry.registered 0
      (Registry.add_to_parser Catalog.groups_group 0 Registry.fresh_parser)
    = [Registry.DisplayScope (text "Dependencies Selection")].
Proof.
  destruct (add_to_parser_group_registers (text "Dependencies Selection")
              [Catalog.group_option; Catalog.without_option;
               Catalog.no_default_option; Catalog.dev_group]
              false false 0 Registry.fresh_parser)
    as (_ & Hgroup & Hparser & _).
  - simpl. lia.
  - constructor.
  - split; [exact Hgroup|exact Hparser].
Defined.

(** The module-level calls build, in the object store, the specification
    that is registered. *)
Example groups_group_built :
  ∃ σ, run_ops Catalog.build_groups_group ∅ = Ok σ
       ∧ Registry.unfold 3 σ 0 = Some Catalog.groups_group.
Proof. eexists. split; [vm_compute; reflexivity|reflexivity]. Qed.

(** The nested group of the catalog ends up as a scope of its own, below
    the scope of the group that holds it. *)
Example groups_group_nested :
  Registry.registered 2
    (Registry.add_to_parser Catalog.groups_group 0 Registry.fresh_parser)
  = [Registry.entry_of Catalog.dev_option; Registry.entry_of Catalog.prod_option].
Proof. reflexivity. Qed.

(** ** Deferred invocations *)

Section DriverFacts.

Import Driver.

Variable pep582_command : Project → value → list N.
Variable user_handler : nat → World → gmap string value → value → value
                        → World * option exn.

Implicit Types w : World.
Implicit Types options : gmap string value.

Local Abbreviation run := (run_callbacks pep582_command user_handler).
Local Abbreviation call := (invoke pep582_command user_handler).

(** The driver starts a prefix of the list it is given. *)
Lemma run_callbacks_started callbacks w options :
  (run callbacks w options).2 `prefix_of` callbacks.
Proof.
  revert w. induction callbacks as [|c callbacks IH]; intros w; simpl; [done|].
  destruct (call c w options) as [w1 [e|]].
  - simpl. by apply prefix_cons, prefix_nil.
  - specialize (IH w1). destruct (run callbacks w1 options) as [[w2 r] started].
    simpl in *. by apply prefix_cons.
Qed.

(** What follows an invocation that raises plays no part. *)
Lemma run_callbacks_cut before c after w options :
  (∀ w', (call c w' options).2 ≠ None) →
  run (before ++ c :: after) w options = run (before ++ [c]) w options.
Proof.
  intros Hraises. revert w.
  induction before as [|b before IH]; intros w; simpl.
  - specialize (Hraises w). by destruct (call c w options) as [w1 [e|]].
  - destruct (call b w options) as [w1 [e|]]; [done|]. by rewrite IH.
Qed.

Lemma run_callbacks_raises before c after w options :
  (∀ w', (call c w' options).2 ≠ None) →
  (run (before ++ c :: after) w options).1.2 ≠ None.
Proof.
  intros Hraises. revert w.
  induction before as [|b before IH]; intros w; simpl.
  - specialize (Hraises w). by destruct (call c w options) as [w1 [e|]].
  - destruct (call b w options) as [w1 [e|]]; [done|].
    specialize (IH w1).
    by destruct (run (before ++ c :: after) w1 options) as [[w2 r] started].
Qed.

End DriverFacts.

(** C8. The pep582 handler prints the derived shell command and then raises
    SystemExit: it never returns normally. Hence, wherever its invocation
    stands in the callbacks list, the driver behaves as if the list ended
    there: it starts no invocation recorded after it, and it does not
    complete normally. *)
Theorem pep582_stops_deferred_invocations
    (pep582_command : Driver.Project → value → list N)
    (user_handler : nat → Driver.World → gmap string value → value → value
                    → Driver.World * option exn)
    (w : Driver.World) (options : gmap string value)
    (values option_string : value) (before after : list value) :
  let pep582 := VPartial (VFunc pep582_fn) values option_string in
  Driver.invoke pep582_command user_handler pep582 w options
  = (Driver.print (pep582_command (Driver.project w) values) w,
     Some (SystemExit 0))
  ∧ Driver.stdout
      (Driver.invoke pep582_command user_handler pep582 w options).1
    = Driver.stdout w ++ [pep582_command (Driver.project w) values]
  ∧ Driver.run_callbacks pep582_command user_handler
      (before ++ pep582 :: after) w options
    = Driver.run_callbacks pep582_command user_handler
        (before ++ [pep582]) w options
  ∧ (Driver.run_callbacks pep582_command user_handler
       (before ++ pep582 :: after) w options).2
    `prefix_of` before ++ [pep582]
  ∧ (Driver.run_callbacks pep582_command user_handler
       (before ++ pep582 :: after) w options).1.2 ≠ None.
Proof.
  intros pep582.
  assert (Hraises : ∀ w',
    (Driver.invoke pep582_command user_handler pep582 w' options).2 ≠ None)
    by done.
  split; [done|]. split; [done|].
  split; [by apply run_callbacks_cut|].
  split; [|by apply run_callbacks_raises].
  rewrite run_callbacks_cut by done. apply run_callbacks_started.
Qed.

(** With the catalog's handlers: [--frozen-lockfile --pep582 -I] disables
    the lockfile, prints the command and stops before [-I] takes effect. *)
Example pep582_before_ignore_python :
  let w := {| Driver.project := {| Driver.enable_write_lockfile := true;
                                   Driver.warnings := [] |};
              Driver.environ := ∅;
              Driver.stdout := [] |} in
  let run :=
    Driver.run_callbacks (λ _ _, text "eval ...") (λ _ w _ _ _, (w, None))
      [VPartial (VFunc frozen_lockfile_fn) (VList []) (VStr (text "--frozen-lockfile"));
       VPartial (VFunc pep582_fn) (VStr (text "AUTO")) (VStr (text "--pep582"));
       VPartial (VFunc ignore_python_fn) (VList []) (VStr (text "-I"))] w ∅ in
  run.1.2 = Some (SystemExit 0)
  ∧ Driver.enable_write_lockfile (Driver.project run.1.1) = false
  ∧ Driver.stdout run.1.1 = [text "eval ..."]
  ∧ Driver.environ run.1.1 !! text "PDM_IGNORE_SAVED_PYTHON" = None
  ∧ length run.2 = 2.
Proof. repeat split. Qed.

(** * Further properties of the module *)

(** ** Splitting on a single character *)

Section SingleCharacter.

Implicit Types s cur : list N.
Implicit Types c : N.

Lemma startswith_char c d s : startswith [c] (d :: s) = (c =? d)%N.
Proof. simpl. by rewrite andb_true_r. Qed.

(** A separator character in the text ends one run of pieces and starts the
    next. *)
Lemma split_scan_char_app c cur s1 s2 :
  split_scan [c] 0 cur (s1 ++ c :: s2)
  = split_scan [c] 0 cur s1 ++ split_scan [c] 0 [] s2.
Proof.
  revert cur. induction s1 as [|d s1 IH]; intros cur.
  - cbn [app split_scan]. rewrite startswith_char, N.eqb_refl. done.
  - cbn [app split_scan]. rewrite !startswith_char.
    destruct (c =? d)%N; simpl; by rewrite IH.
Qed.

Lemma split_scan_char_free c cur s :
  c ∉ s → split_scan [c] 0 cur s = [rev cur ++ s].
Proof.
  revert cur. induction s as [|d s IH]; intros cur Hc.
  - simpl. by rewrite app_nil_r.
  - apply not_elem_of_cons in Hc as [Hd Hs].
    cbn [split_scan]. rewrite startswith_char.
    rewrite (proj2 (N.eqb_neq c d)) by done.
    rewrite IH by done. simpl. by rewrite <- app_assoc.
Qed.

Lemma not_elem_of_rev c cur : c ∉ cur → c ∉ rev cur.
Proof.
  intros Hcur Hin. apply Hcur. apply list_elem_of_In.
  apply list_elem_of_In in Hin. by apply in_rev.
Qed.

Lemma split_scan_pieces_free c cur s :
  c ∉ cur → Forall (λ p, c ∉ p) (split_scan [c] 0 cur s).
Proof.
  revert cur. induction s as [|d s IH]; intros cur Hcur.
  - constructor; [|done]. by apply not_elem_of_rev.
  - cbn [split_scan]. rewrite startswith_char.
    destruct (c =? d)%N eqn:Hcd.
    + constructor.
      * by apply not_elem_of_rev.
      * apply IH. apply not_elem_of_nil.
    + apply IH. apply not_elem_of_cons. split; [|done].
      by apply N.eqb_neq.
Qed.

Lemma strip_subseteq s x : x ∈ strip s → x ∈ s.
Proof.
  unfold strip. intros Hx.
  destruct (rstrip_prefix (lstrip s)) as [ws1 H1].
  destruct (lstrip_suffix s) as [ws2 H2].
  rewrite H2. apply elem_of_app. right.
  rewrite H1. apply elem_of_app. by left.
Qed.

Lemma segments_free c s : Forall (λ p, c ∉ p) (segments s [c]).
Proof.
  unfold segments, pieces_of. apply Forall_forall. intros p Hp.
  apply list_elem_of_filter in Hp as [_ Hp].
  apply list_elem_of_fmap in Hp as (q & -> & Hq).
  intros Hc. apply strip_subseteq in Hc.
  pose proof (split_scan_pieces_free c [] s (not_elem_of_nil c)) as Hfree.
  rewrite Forall_forall in Hfree. by apply (Hfree q).
Qed.

Lemma pieces_of_app c s1 s2 :
  pieces_of (s1 ++ c :: s2) [c] = pieces_of s1 [c] ++ pieces_of s2 [c].
Proof. apply split_scan_char_app. Qed.

Lemma segments_app c s1 s2 :
  segments (s1 ++ c :: s2) [c] = segments s1 [c] ++ segments s2 [c].
Proof. unfold segments. by rewrite pieces_of_app, fmap_app, filter_app. Qed.

(** Pieces without the separator character are found again in their join. *)
Lemma pieces_of_join c (ps : list (list N)) :
  Forall (λ p, c ∉ p) ps → ps ≠ [] → pieces_of (join [c] ps) [c] = ps.
Proof.
  induction 1 as [|p ps Hp Hps IH]; [done|]. intros _.
  destruct ps as [|q ps].
  - simpl. unfold pieces_of. by rewrite split_scan_char_free.
  - rewrite join_cons by done. change ([c] ++ ?t) with (c :: t).
    rewrite pieces_of_app, IH by done.
    unfold pieces_of. by rewrite split_scan_char_free.
Qed.

Lemma segments_fixed (ps : list (list N)) :
  Forall (λ p, p ≠ [] ∧ strip p = p) ps →
  filter (λ p, p ≠ []) (strip <$> ps) = ps.
Proof.
  induction 1 as [|p ps [Hne Hp] _ IH]; [done|].
  cbn [fmap list_fmap]. rewrite filter_cons, Hp.
  destruct (decide (p ≠ [])); [|done]. f_equal. apply IH.
Qed.

Lemma segments_join c s :
  segments (join [c] (segments s [c])) [c] = segments s [c].
Proof.
  destruct (segments s [c]) as [|p ps] eqn:Hsegs; [done|].
  unfold segments at 1. rewrite pieces_of_join.
  - apply segments_fixed. rewrite <- Hsegs. apply segments_trimmed.
  - rewrite <- Hsegs. apply segments_free.
  - done.
Qed.

End SingleCharacter.

(** The single character matters: with a longer separator the occurrence
    found first need not be the one that was written between two texts. *)
Example segments_app_long_separator :
  segments (text "xa" ++ text "aa" ++ text "y") (text "aa") = [text "x"; text "ay"]
  ∧ segments (text "xa") (text "aa") ++ segments (text "y") (text "aa")
    = [text "xa"; text "y"].
Proof. split; reflexivity. Qed.

(** X1. On a text value the split-accumulate action succeeds exactly when
    the separator is not empty and the destination holds a list or a false
    value. A missing destination and a destination holding a true value
    that is not a list raise AttributeError; otherwise an empty separator
    raises ValueError. *)
Theorem SplitList_call_outcome
    (separator : list N) (dest : string) (args : gmap string value)
    (s : list N) :
  (args !! dest = None →
     SplitList_call separator dest args (VStr s) = Raise AttributeError)
  ∧ (∀ v, args !! dest = Some v → prior_contents v = None →
       SplitList_call separator dest args (VStr s) = Raise AttributeError)
  ∧ (∀ v prior, args !! dest = Some v → prior_contents v = Some prior →
       separator = [] →
       SplitList_call separator dest args (VStr s) = Raise ValueError)
  ∧ ((∃ args', SplitList_call separator dest args (VStr s) = Ok args')
     ↔ separator ≠ []
       ∧ ∃ v prior, args !! dest = Some v ∧ prior_contents v = Some prior).
Proof.
  assert (Hbad : ∀ v, args !! dest = Some v → prior_contents v = None →
            SplitList_call separator dest args (VStr s) = Raise AttributeError).
  { intros v Hv Hp. unfold SplitList_call, getattr. rewrite Hv. simpl.
    destruct v as [| [] | z | t | l | | | | |]; simpl in *; try done.
    - by destruct (z =? 0)%Z.
    - by destruct (bool_decide (t = [])). }
  assert (Hempty : ∀ v prior, args !! dest = Some v →
            prior_contents v = Some prior → separator = [] →
            SplitList_call separator dest args (VStr s) = Raise ValueError).
  { intros v prior Hv Hp ->. unfold SplitList_call, getattr. rewrite Hv. simpl.
    by rewrite (prior_contents_split _ _ Hp). }
  assert (Hmissing : args !! dest = None →
            SplitList_call separator dest args (VStr s) = Raise AttributeError).
  { intros Hv. unfold SplitList_call, getattr. by rewrite Hv. }
  split; [done|]. split; [done|]. split; [done|]. split.
  - intros [args' Hrun].
    destruct (args !! dest) as [v|] eqn:Hv;
      [|by rewrite Hmissing in Hrun].
    destruct (prior_contents v) as [prior|] eqn:Hp;
      [|by rewrite (Hbad v) in Hrun].
    split; [|by eauto].
    intros ->. by rewrite (Hempty v prior) in Hrun.
  - intros (Hsep & v & prior & Hv & Hp). eexists.
    by eapply SplitList_call_text.
Qed.

(** X2. With a one-character separator, one occurrence of the flag with two
    texts joined by the separator leaves the parse result that two
    occurrences, one per text, leave. *)
Theorem split_lists_joined_or_repeated
    (c : N) (dest : string) (args : gmap string value) (s1 s2 : list N)
    (v : value) (prior : list value) :
  args !! dest = Some v →
  prior_contents v = Some prior →
  ∃ args1 args2,
    SplitList_call [c] dest args (VStr s1) = Ok args1
    ∧ SplitList_call [c] dest args1 (VStr s2) = Ok args2
    ∧ SplitList_call [c] dest args (VStr (s1 ++ c :: s2)) = Ok args2.
Proof.
  intros Hv Hp. do 2 eexists.
  split; [by eapply SplitList_call_text|].
  split.
  - eapply SplitList_call_text; [done|apply lookup_insert_eq|done].
  - erewrite SplitList_call_text by done.
    rewrite insert_insert_eq, segments_app, fmap_app. by rewrite app_assoc.
Qed.

Lemma split_lists_joined_or_repeated_witness :
  ∃ args2,
    SplitList_call (text ",") "groups" {["groups" := VNone]} (VStr (text "a,b"))
    = Ok args2
    ∧ args2 !! "groups" = Some (VList [VStr (text "a"); VStr (text "b")]).
Proof.
  destruct (split_lists_joined_or_repeated 44%N "groups" {["groups" := VNone]}
              (text "a") (text "b") VNone [])
    as (args1 & args2 & H1 & H2 & H12).
  - reflexivity.
  - reflexivity.
  - exists args2. split; [exact H12|].
    assert (Hargs : Ok args2
                    = Ok (<["groups" := VList [VStr (text "a"); VStr (text "b")]]>
                            ({["groups" := VNone]} : gmap string value)))
      by (rewrite <- H12; reflexivity).
    injection Hargs as ->. reflexivity.
Defined.

(** X3. With a one-character separator the result of the environment helper
    is a fixed point: joining the segments of a value with the separator
    and parsing the join gives the same segments, so exporting what was
    parsed changes nothing for the next run. *)
Theorem from_splitted_env_reexport
    (environ : gmap (list N) (list N)) (name : list N) (c : N) (v : list N) :
  environ !! name = Some v →
  segments (join [c] (segments v [c])) [c] = segments v [c]
  ∧ from_splitted_env (<[name := join [c] (segments v [c])]> environ) name [c]
    = from_splitted_env environ name [c].
Proof.
  intros Hv. split; [apply segments_join|].
  rewrite !from_splitted_env_eq by done.
  by rewrite lookup_insert_eq, Hv, segments_join.
Qed.

Lemma from_splitted_env_reexport_witness :
  from_splitted_env {[text "PDM_SKIP_HOOKS" := text "pre_build,post_build"]}
    (text "PDM_SKIP_HOOKS") (text ",")
  = from_splitted_env {[text "PDM_SKIP_HOOKS" := text " pre_build , ,post_build"]}
      (text "PDM_SKIP_HOOKS") (text ",").
Proof.
  destruct (from_splitted_env_reexport
              {[text "PDM_SKIP_HOOKS" := text " pre_build , ,post_build"]}
              (text "PDM_SKIP_HOOKS") 44%N (text " pre_build , ,post_build"))
    as [_ Hrun].
  - reflexivity.
  - etrans; [|exact Hrun]. reflexivity.
Defined.

(** X4. A destination whose default comes from the environment helper and
    whose action is the split-accumulate action with the same separator ends
    up, after one occurrence of the flag, with the segments of the
    environment value first and the segments of the command-line text
    after them; with the variable unset or blank it holds the command-line
    segments alone. *)
Theorem env_default_then_split_lists
    (environ : gmap (list N) (list N)) (name separator : list N)
    (dest : string) (args : gmap string value) (s : list N) (default : value) :
  separator ≠ [] →
  from_splitted_env environ name separator = Ok default →
  args !! dest = Some default →
  ∃ args',
    SplitList_call separator dest args (VStr s) = Ok args'
    ∧ args' !! dest
      = Some (VList (VStr <$> (match environ !! name with
                               | Some v => segments v separator
                               | None => []
                               end ++ segments s separator))).
Proof.
  intros Hsep Hdefault Hdest.
  rewrite from_splitted_env_eq in Hdefault by done. injection Hdefault as <-.
  eexists. split.
  - eapply SplitList_call_text; [done..|].
    instantiate (1 := VStr <$> match environ !! name with
                               | Some v => segments v separator
                               | None => []
                               end).
    destruct (environ !! name) as [v|]; [|done].
    by destruct (segments v separator).
  - by rewrite lookup_insert_eq, fmap_app.
Qed.

Lemma env_default_then_split_lists_witness :
  ∃ args',
    SplitList_call (text ",") "skip"
      {["skip" := VList [VStr (text "pre_build")]]} (VStr (text "post_build, "))
    = Ok args'
    ∧ args' !! "skip"
      = Some (VList [VStr (text "pre_build"); VStr (text "post_build")]).
Proof.
  destruct (env_default_then_split_lists
              {[text "PDM_SKIP_HOOKS" := text "pre_build"]}
              (text "PDM_SKIP_HOOKS") (text ",") "skip"
              {["skip" := VList [VStr (text "pre_build")]]}
              (text "post_build, ") (VList [VStr (text "pre_build")]))
    as (args' & Hrun & Hdest).
  - discriminate.
  - reflexivity.
  - reflexivity.
  - exists args'. split; [exact Hrun|]. rewrite Hdest. reflexivity.
Defined.

(** X5. A text without any segment (empty, or separators and whitespace
    only) leaves a destination that holds a list as it is, the whole parse
    result with it; but it turns a destination that holds None into the
    empty list. *)
Theorem split_lists_blank_text
    (separator : list N) (dest : string) (args : gmap string value)
    (s : list N) :
  separator ≠ [] →
  segments s separator = [] →
  (∀ l, args !! dest = Some (VList l) →
     SplitList_call separator dest args (VStr s) = Ok args)
  ∧ (args !! dest = Some VNone →
       SplitList_call separator dest args (VStr s)
       = Ok (<[dest := VList []]> args)
       ∧ SplitList_call separator dest args (VStr s) ≠ Ok args).
Proof.
  intros Hsep Hblank. split.
  - intros l Hl.
    rewrite (SplitList_call_text separator dest args s (VList l) l) by done.
    rewrite Hblank. simpl. rewrite app_nil_r. f_equal. by apply insert_id.
  - intros Hnone.
    rewrite (SplitList_call_text separator dest args s VNone []) by done.
    rewrite Hblank. split; [done|].
    intros [= Heq].
    assert (Hl : (<[dest := VList []]> args) !! dest = Some VNone)
      by (by rewrite Heq).
    by rewrite lookup_insert_eq in Hl.
Qed.

Lemma split_lists_blank_text_witness :
  SplitList_call (text ",") "groups" {["groups" := VNone]} (VStr (text " , ,"))
  = Ok {["groups" := VList []]}.
Proof.
  destruct (split_lists_blank_text (text ",") "groups" {["groups" := VNone]}
              (text " , ,")) as [_ Hnone].
  - discriminate.
  - reflexivity.
  - destruct Hnone as [Hrun _]; [reflexivity|].
    etrans; [exact Hrun|]. reflexivity.
Defined.

(** X6. The environment helper returns exactly when the separator is not
    empty or the variable is missing or empty; in the two latter cases it
    returns None whatever the separator is. With the empty separator and a
    variable that is set and not empty it raises ValueError. *)
Theorem from_splitted_env_outcome
    (environ : gmap (list N) (list N)) (name separator : list N) :
  ((∃ r, from_splitted_env environ name separator = Ok r)
   ↔ separator ≠ [] ∨ environ !! name = None ∨ environ !! name = Some [])
  ∧ (environ !! name = None ∨ environ !! name = Some [] →
       from_splitted_env environ name separator = Ok VNone)
  ∧ (∀ c v, separator = [] → environ !! name = Some (c :: v) →
       from_splitted_env environ name separator = Raise ValueError).
Proof.
  assert (Hunset : environ !! name = None ∨ environ !! name = Some [] →
            from_splitted_env environ name separator = Ok VNone).
  { unfold from_splitted_env, getenv. by intros [-> | ->]. }
  assert (Hraise : ∀ c v, separator = [] → environ !! name = Some (c :: v) →
            from_splitted_env environ name separator = Raise ValueError).
  { intros c v -> Hv. unfold from_splitted_env, getenv. by rewrite Hv. }
  split; [|by split].
  split.
  - intros [r Hrun].
    destruct separator as [|a separator]; [|by left]. right.
    destruct (environ !! name) as [[|c v]|] eqn:Hv; [by right| |by left].
    by rewrite (Hraise c v) in Hrun.
  - intros [Hsep | Hv].
    + eexists. by apply from_splitted_env_eq.
    + eexists. by apply Hunset.
Qed.

(** X7. A firing of a CallbackAction succeeds exactly when the parse result
    has no [callbacks] attribute or has a list there. When the attribute
    holds anything else (a destination of that name with its default, say)
    the firing raises AttributeError. *)
Theorem CallbackAction_call_outcome
    (self : CallbackAction) (namespace : gmap string value)
    (values option_string : value) :
  ((∃ namespace',
       CallbackAction_call self namespace values option_string = Ok namespace')
   ↔ callbacks_ready namespace)
  ∧ (∀ v, namespace !! "callbacks" = Some v → (∀ l, v ≠ VList l) →
       CallbackAction_call self namespace values option_string
       = Raise AttributeError).
Proof.
  assert (Hclash : ∀ v, namespace !! "callbacks" = Some v → (∀ l, v ≠ VList l) →
            CallbackAction_call self namespace values option_string
            = Raise AttributeError).
  { intros v Hv Hnot. unfold CallbackAction_call, hasattr, getattr.
    rewrite Hv. rewrite bool_decide_eq_true_2 by eauto. simpl. rewrite Hv. simpl.
    destruct v; try done. by destruct (Hnot l). }
  split; [|done]. split.
  - intros [ns' Hrun].
    destruct (namespace !! "callbacks") as [v|] eqn:Hv; [|by left].
    specialize (Hclash v eq_refl).
    destruct v; try (by rewrite Hclash in Hrun).
    right. eauto.
  - intros Hready. eexists. by apply CallbackAction_call_ok.
Qed.

(** ** The object store under the operations of the module *)

Section StoreFacts.

Import Measure.

Implicit Types σ : gmap nat object.
Implicit Types kwargs : gmap string value.

Lemma prebuilt_raw σ args : raw args → prebuilt σ args = None.
Proof. by destruct args as [|[] ?]. Qed.

Lemma add_argument_raw_eq self args kwargs σ name options q m :
  σ !! self = Some (ArgumentGroupObj name options q m) →
  raw args →
  add_argument self args kwargs σ
  = Ok (<[self := ArgumentGroupObj name (options ++ [fresh (dom σ)]) q m]>
          (<[fresh (dom σ) := OptionObj args kwargs]> σ)).
Proof.
  intros Hself Hraw. unfold add_argument. rewrite prebuilt_raw by done.
  unfold Option_init, options_append.
  pose proof (alloc_frame (OptionObj args kwargs) σ self _ Hself) as Hframe.
  simpl in *. by rewrite Hframe.
Qed.

(** Appending a child leaves every group what it was, but for the child it
    may have gained. *)
Lemma options_append_group self option σ σ' r name options q m :
  options_append self option σ = Ok σ' →
  σ !! r = Some (ArgumentGroupObj name options q m) →
  ∃ more, σ' !! r = Some (ArgumentGroupObj name (options ++ more) q m).
Proof.
  unfold options_append. intros Hrun Hr.
  destruct (σ !! self) as [[|name1 options1 q1 m1]|] eqn:Hself; try done.
  injection Hrun as <-. destruct (decide (self = r)) as [->|Hne].
  - rewrite lookup_insert_eq. exists [option]. congruence.
  - rewrite lookup_insert_ne by done. exists []. by rewrite app_nil_r.
Qed.

Lemma run_op_group o σ σ' r name options q m :
  run_op o σ = Ok σ' →
  σ !! r = Some (ArgumentGroupObj name options q m) →
  ∃ more, σ' !! r = Some (ArgumentGroupObj name (options ++ more) q m).
Proof.
  intros Hrun Hr.
  destruct o as [a k|name1 m1 q1|self func|self a k|self option]; simpl in Hrun.
  - injection Hrun as <-. exists []. rewrite app_nil_r.
    by apply (alloc_frame (OptionObj a k)).
  - injection Hrun as <-. exists []. rewrite app_nil_r.
    by apply (alloc_frame (ArgumentGroupObj name1 [] q1 m1)).
  - unfold Option_call in Hrun.
    destruct (σ !! self) as [[args1 kwargs1|]|] eqn:Hself; try done.
    simpl in Hrun. injection Hrun as <-.
    exists []. rewrite app_nil_r. rewrite lookup_insert_ne; [done|].
    intros ->. congruence.
  - unfold add_argument in Hrun. destruct (prebuilt σ a) as [option|].
    + by eapply options_append_group.
    + unfold Option_init in Hrun.
      destruct (alloc (OptionObj a k) σ) as [o σ2] eqn:Halloc.
      eapply options_append_group; [exact Hrun|].
      replace σ2 with (alloc (OptionObj a k) σ).2 by by rewrite Halloc.
      by apply alloc_frame.
  - by eapply options_append_group.
Qed.

(** Operations other than the decorator form applied to [r] leave the
    Option [r] as it is. *)
Lemma run_ops_option_frame ops σ σ' r args kwargs :
  Forall (λ o, ∀ g, o ≠ Decorate r g) ops →
  run_ops ops σ = Ok σ' →
  σ !! r = Some (OptionObj args kwargs) →
  σ' !! r = Some (OptionObj args kwargs).
Proof.
  intros Hall. revert σ. induction Hall as [|o ops Ho _ IH]; intros σ Hrun Hr.
  - by injection Hrun as <-.
  - cbn [run_ops] in Hrun.
    destruct (run_op o σ) as [σ1|] eqn:Hop; [|done]. simpl in Hrun.
    apply (IH σ1); [done|].
    rewrite (run_op_option _ _ _ _ _ _ Hop Hr).
    destruct o as [| |self func| |]; try done.
    case_bool_decide as Heq; [|done]. subst self. by destruct (Ho func).
Qed.

Lemma add_arguments_in_order self
    (flags : list (list value * gmap string value)) σ name options q m :
  σ !! self = Some (ArgumentGroupObj name options q m) →
  Forall (λ f, raw f.1) flags →
  ∃ σ' new,
    run_ops ((λ f, AddArgument self f.1 f.2) <$> flags) σ = Ok σ'
    ∧ σ' !! self = Some (ArgumentGroupObj name (options ++ new) q m)
    ∧ Forall2 (λ r f, σ !! r = None ∧ σ' !! r = Some (OptionObj f.1 f.2))
        new flags.
Proof.
  intros Hself Hraw. revert σ options Hself.
  induction Hraw as [|[args kwargs] flags Hf Hraw IH]; intros σ options Hself.
  - exists σ, []. rewrite app_nil_r. by repeat split.
  - simpl in Hf. cbn [fmap list_fmap run_ops run_op]. simpl.
    rewrite (add_argument_raw_eq self args kwargs σ name options q m) by done.
    simpl. set (r := fresh (dom σ)).
    set (σ1 := <[self := ArgumentGroupObj name (options ++ [r]) q m]>
                 (<[r := OptionObj args kwargs]> σ)).
    assert (Hfresh : σ !! r = None) by apply not_elem_of_dom, is_fresh.
    assert (Hne : self ≠ r) by (intros ->; congruence).
    destruct (IH σ1 (options ++ [r])) as (σ' & new & Hrun & Hgroup & Hnew).
    { apply lookup_insert_eq. }
    exists σ', (r :: new). split; [exact Hrun|]. split.
    + rewrite Hgroup. by rewrite <- app_assoc.
    + constructor.
      * split; [done|]. simpl.
        eapply run_ops_option_frame; [|exact Hrun|].
        -- apply Forall_forall. intros o Ho g ->.
           apply list_elem_of_fmap in Ho as (f & Hf' & _). done.
        -- subst σ1. rewrite lookup_insert_ne by done. apply lookup_insert_eq.
      * eapply Forall2_impl; [exact Hnew|]. intros r' f [Hnone Hsome].
        split; [|done]. subst σ1.
        apply lookup_insert_None in Hnone as [Hnone _].
        by apply lookup_insert_None in Hnone as [Hnone _].
Qed.

Lemma unfold_group depth σ r name options q m :
  σ !! r = Some (ArgumentGroupObj name options q m) →
  Registry.unfold (S depth) σ r
  = (children ← mapM (Registry.unfold depth σ) options;
     Some (Registry.ArgumentGroup_ name children q m)).
Proof. intros Hr. simpl. by rewrite Hr. Qed.

Lemma unfold_option depth σ r args kwargs :
  σ !! r = Some (OptionObj args kwargs) →
  Registry.unfold (S depth) σ r = Some (Registry.Option_ args kwargs).
Proof. intros Hr. simpl. by rewrite Hr. Qed.

End StoreFacts.

(** X8. [add_argument] with positional arguments that do not start with an
    Option wraps them, and the keyword arguments, in a new Option: a new
    object that holds exactly these arguments and becomes the last child of
    the group, while the children the group had and every other object stay
    as they were. Nothing is checked: any arguments are accepted. *)
Theorem add_argument_wraps
    (self : nat) (args : list value) (kwargs : gmap string value)
    (σ : gmap nat object) (name : list N) (options : list nat)
    (required is_mutually_exclusive : bool) :
  σ !! self
  = Some (ArgumentGroupObj name options required is_mutually_exclusive) →
  Measure.raw args →
  ∃ σ' option,
    add_argument self args kwargs σ = Ok σ'
    ∧ σ !! option = None
    ∧ σ' !! option = Some (OptionObj args kwargs)
    ∧ σ' !! self
      = Some (ArgumentGroupObj name (options ++ [option]) required
                is_mutually_exclusive)
    ∧ ∀ r, r ≠ self → r ≠ option → σ' !! r = σ !! r.
Proof.
  intros Hself Hraw. eexists _, (fresh (dom σ)).
  split; [by apply add_argument_raw_eq|].
  assert (Hfresh : σ !! fresh (dom σ) = None) by apply not_elem_of_dom, is_fresh.
  assert (Hne : self ≠ fresh (dom σ)) by (intros Heq; congruence).
  split; [done|]. split; [by simplify_map_eq|]. split; [by simplify_map_eq|].
  intros r Hr1 Hr2. by simplify_map_eq.
Qed.

Lemma add_argument_wraps_witness :
  ∃ σ',
    add_argument 0 [VStr (text "--clean")] {["action" := VStr (text "store_true")]}
      {[0 := ArgumentGroupObj (text "clean") [] false true]} = Ok σ'
    ∧ σ' !! 0 = Some (ArgumentGroupObj (text "clean") [1] false true)
    ∧ σ' !! 1 = Some (OptionObj [VStr (text "--clean")]
                        {["action" := VStr (text "store_true")]}).
Proof.
  destruct (add_argument_wraps 0 [VStr (text "--clean")]
              {["action" := VStr (text "store_true")]}
              {[0 := ArgumentGroupObj (text "clean") [] false true]}
              (text "clean") [] false true)
    as (σ' & option & Hrun & _).
  - reflexivity.
  - exact I.
  - exists σ'. split; [exact Hrun|].
    assert (Hσ : Ok σ'
                 = add_argument 0 [VStr (text "--clean")]
                     {["action" := VStr (text "store_true")]}
                     {[0 := ArgumentGroupObj (text "clean") [] false true]})
      by (by rewrite Hrun).
    vm_compute in Hσ. injection Hσ as ->. split; reflexivity.
Defined.

(** X9. A run of [add_argument] calls with raw arguments on one group
    extends its children by one new Option per call, in the order of the
    calls, each holding the arguments of its call; on a group that had no
    children the specification read off the store lists exactly these
    Options, in that order. *)
Theorem add_argument_keeps_call_order
    (self : nat) (flags : list (list value * gmap string value))
    (σ : gmap nat object) (name : list N) (options : list nat)
    (required is_mutually_exclusive : bool) :
  σ !! self
  = Some (ArgumentGroupObj name options required is_mutually_exclusive) →
  Forall (λ f, Measure.raw f.1) flags →
  ∃ σ' new,
    run_ops ((λ f, AddArgument self f.1 f.2) <$> flags) σ = Ok σ'
    ∧ σ' !! self
      = Some (ArgumentGroupObj name (options ++ new) required
                is_mutually_exclusive)
    ∧ Forall2 (λ r f, σ !! r = None ∧ σ' !! r = Some (OptionObj f.1 f.2))
        new flags
    ∧ (options = [] →
         Registry.unfold 2 σ' self
         = Some (Registry.ArgumentGroup_ name
                   ((λ f, Registry.Option_ f.1 f.2) <$> flags) required
                   is_mutually_exclusive)).
Proof.
  intros Hself Hraw.
  destruct (add_arguments_in_order self flags σ name options required
              is_mutually_exclusive Hself Hraw)
    as (σ' & new & Hrun & Hgroup & Hnew).
  exists σ', new. split; [done|]. split; [done|]. split; [done|].
  intros ->. simpl in Hgroup. rewrite (unfold_group 1 _ _ _ _ _ _ Hgroup).
  assert (Hchildren : mapM (Registry.unfold 1 σ') new
                      = Some ((λ f, Registry.Option_ f.1 f.2) <$> flags)).
  { apply mapM_Some. apply Forall2_fmap_r.
    eapply Forall2_impl; [exact Hnew|].
    intros r f [_ Hr]. by apply unfold_option. }
  by rewrite Hchildren.
Qed.

Lemma add_argument_keeps_call_order_witness :
  ∃ σ',
    run_ops [AddArgument 0 Catalog.dev_args Catalog.dev_kwargs;
             AddArgument 0 Catalog.prod_args Catalog.prod_kwargs]
      {[0 := ArgumentGroupObj (text "dev") [] false true]} = Ok σ'
    ∧ Registry.unfold 2 σ' 0 = Some Catalog.dev_group.
Proof.
  destruct (add_argument_keeps_call_order 0
              [(Catalog.dev_args, Catalog.dev_kwargs);
               (Catalog.prod_args, Catalog.prod_kwargs)]
              {[0 := ArgumentGroupObj (text "dev") [] false true]}
              (text "dev") [] false true)
    as (σ' & new & Hrun & _ & _ & Hunfold).
  - reflexivity.
  - repeat constructor.
  - exists σ'. split; [exact Hrun|]. by apply Hunfold.
Defined.

Lemma run_ops_option_kept (ops : list op) (σ σ' : gmap nat object)
    (r : nat) (args : list value) (kwargs : gmap string value) :
  run_ops ops σ = Ok σ' →
  σ !! r = Some (OptionObj args kwargs) →
  ∃ kwargs',
    σ' !! r = Some (OptionObj args kwargs')
    ∧ ∀ k, k ≠ "action" → k ≠ "callback" → kwargs' !! k = kwargs !! k.
Proof.
  revert σ kwargs. induction ops as [|o ops IH]; intros σ kwargs Hrun Hr.
  - injection Hrun as <-. by exists kwargs.
  - cbn [run_ops] in Hrun.
    destruct (run_op o σ) as [σ1|] eqn:Hop; [|done]. simpl in Hrun.
    pose proof (run_op_option _ _ _ _ _ _ Hop Hr) as Hr1.
    destruct (IH σ1 _ Hrun Hr1) as (kwargs' & Hr' & Hsame).
    exists kwargs'. split; [done|]. intros k Ha Hc.
    rewrite Hsame by done.
    destruct o as [| |self func| |]; try done.
    case_bool_decide; [|done]. by rewrite !lookup_insert_ne.
Qed.

Lemma run_ops_group_kept (ops : list op) (σ σ' : gmap nat object)
    (r : nat) (name : list N) (options : list nat) (q m : bool) :
  run_ops ops σ = Ok σ' →
  σ !! r = Some (ArgumentGroupObj name options q m) →
  ∃ more, σ' !! r = Some (ArgumentGroupObj name (options ++ more) q m).
Proof.
  revert σ options. induction ops as [|o ops IH]; intros σ options Hrun Hr.
  - injection Hrun as <-. exists []. by rewrite app_nil_r.
  - cbn [run_ops] in Hrun.
    destruct (run_op o σ) as [σ1|] eqn:Hop; [|done]. simpl in Hrun.
    destruct (run_op_group _ _ _ _ _ _ _ _ Hop Hr) as [more1 Hr1].
    destruct (IH σ1 _ Hrun Hr1) as [more Hr'].
    exists (more1 ++ more). by rewrite app_assoc.
Qed.

(** X10. No sequence of operations of the module removes an object or
    changes what kind of object it is. An Option keeps its aliases and
    every parameter other than [action] and [callback]; a group keeps its
    name and its two flags, and its children only grow at the end. *)
Theorem run_ops_preserves
    (ops : list op) (σ σ' : gmap nat object) :
  run_ops ops σ = Ok σ' →
  (∀ r args kwargs,
      σ !! r = Some (OptionObj args kwargs) →
      ∃ kwargs',
        σ' !! r = Some (OptionObj args kwargs')
        ∧ ∀ k, k ≠ "action" → k ≠ "callback" → kwargs' !! k = kwargs !! k)
  ∧ (∀ r name options required is_mutually_exclusive,
        σ !! r
        = Some (ArgumentGroupObj name options required is_mutually_exclusive) →
        ∃ more,
          σ' !! r
          = Some (ArgumentGroupObj name (options ++ more) required
                    is_mutually_exclusive))
  ∧ dom σ ⊆ dom σ'.
Proof.
  intros Hrun.
  split; [intros r args kwargs; by apply (run_ops_option_kept ops σ)|].
  split; [intros r name options q m; by apply (run_ops_group_kept ops σ)|].
  intros r [o Hr]%elem_of_dom. apply elem_of_dom.
  destruct o as [args kwargs|name options q m].
  - destruct (run_ops_option_kept _ _ _ _ _ _ Hrun Hr) as (kwargs' & -> & _).
    by eexists.
  - destruct (run_ops_group_kept _ _ _ _ _ _ _ _ Hrun Hr) as (more & ->).
    by eexists.
Qed.

Lemma run_ops_preserves_witness :
  ∃ σ',
    run_ops [AddArgument 0 Catalog.group_args Catalog.group_kwargs;
             Decorate 1 (VFunc (user_fn 0));
             NewGroup (text "dev") true false;
             OptionsAppend 0 2]
      {[0 := ArgumentGroupObj (text "Dependencies Selection") [] false false]}
    = Ok σ'
    ∧ ∃ more,
        σ' !! 0
        = Some (ArgumentGroupObj (text "Dependencies Selection") ([] ++ more)
                  false false).
Proof.
  eexists. split; [vm_compute; reflexivity|].
  edestruct (run_ops_preserves
               [AddArgument 0 Catalog.group_args Catalog.group_kwargs;
                Decorate 1 (VFunc (user_fn 0));
                NewGroup (text "dev") true false;
                OptionsAppend 0 2]
               {[0 := ArgumentGroupObj (text "Dependencies Selection") []
                        false false]})
    as (_ & Hgroup & _).
  - vm_compute. reflexivity.
  - apply (Hgroup 0). reflexivity.
Defined.

(** X11. The decorator form applies to Options built by [Option.__init__]
    only: on a group, which has no [kwargs], it raises AttributeError. On
    an Option the last application wins whatever was bound before, so
    applying it again with the same handler changes nothing. *)
Theorem Option_call_last_wins
    (self : nat) (f g : value) (σ : gmap nat object) :
  ((∃ r, Option_call self g σ = Ok r)
   ↔ ∃ args kwargs, σ !! self = Some (OptionObj args kwargs))
  ∧ (∀ name options required is_mutually_exclusive,
        σ !! self
        = Some (ArgumentGroupObj name options required is_mutually_exclusive) →
        Option_call self g σ = Raise AttributeError)
  ∧ (∀ v σ1,
        Option_call self g σ = Ok (v, σ1) →
        Option_call self f σ1 = Option_call self f σ
        ∧ Option_call self g σ1 = Ok (v, σ1)).
Proof.
  unfold Option_call. split; [|split].
  - split.
    + intros [r Hrun]. destruct (σ !! self) as [[args kwargs|]|]; try done.
      by eauto.
    + intros (args & kwargs & ->). by eexists.
  - by intros name options q m ->.
  - intros v σ1 Hrun.
    destruct (σ !! self) as [[args kwargs|]|] eqn:Hself; try done.
    simpl in Hrun. injection Hrun as <- <-.
    rewrite lookup_insert_eq. simpl. rewrite !insert_insert_eq.
    assert (Hkw : ∀ h,
      <["callback" := h]>
        (<["action" := VCallbackAction]>
           (<["callback" := g]> (<["action" := VCallbackAction]> kwargs)))
      = <["callback" := h]> (<["action" := VCallbackAction]> kwargs)).
    { intros h. apply map_eq. intros k.
      destruct (decide (k = "callback")) as [->|];
        [by rewrite !lookup_insert_eq|].
      destruct (decide (k = "action")) as [->|].
      - by rewrite !(lookup_insert_ne _ "callback"), !lookup_insert_eq.
      - by rewrite !lookup_insert_ne. }
    by rewrite !Hkw.
Qed.

(** ** Registration, on the store and on the tree *)

Section WalkFacts.

Import Registry Measure.

Implicit Types σ : gmap nat object.
Implicit Types e : engine.

Lemma on_store_option depth σ self args kwargs parser e :
  σ !! self = Some (OptionObj args kwargs) →
  OnStore.add_to_parser (S depth) σ self parser e
  = Some (Registry.add_argument parser args kwargs e).
Proof. intros Hself. simpl. by rewrite Hself. Qed.

Lemma on_store_group depth σ self name options q m parser e :
  σ !! self = Some (ArgumentGroupObj name options q m) →
  OnStore.add_to_parser (S depth) σ self parser e
  = foldl (λ acc option,
             e' ← acc; OnStore.add_to_parser depth σ option (next e) e')
      (Some (with_scope name q m parser e)) options.
Proof. intros Hself. simpl. rewrite Hself. by destruct m. Qed.

Lemma foldl_bind_None {A B} (f : B → A → option B) (l : list A) :
  foldl (λ acc x, b ← acc; f b x) None l = None.
Proof. by induction l. Qed.

Lemma leaves_group name options q m :
  leaves (ArgumentGroup_ name options q m) = concat (leaves <$> options).
Proof. simpl. induction options as [|o options IH]; [done|]. simpl. by rewrite IH. Qed.

Lemma scopes_group name options q m :
  scopes (ArgumentGroup_ name options q m) = S (sum_list (scopes <$> options)).
Proof.
  simpl. f_equal. induction options as [|o options IH]; [done|].
  simpl. by rewrite IH.
Qed.

Lemma arguments_scope_call name q m parser group :
  arguments [scope_call name q m parser group] = []
  ∧ created [scope_call name q m parser group] = [group].
Proof. by destruct m. Qed.

Lemma children_add_their_leaves options group e :
  Forall adds_its_leaves options →
  arguments (calls (foldl (λ e' option, add_to_group option group e') e options))
  = arguments (calls e) ++ concat (leaves <$> options)
  ∧ created (calls (foldl (λ e' option, add_to_group option group e') e options))
    = created (calls e) ++ seq (next e) (sum_list (scopes <$> options))
  ∧ next (foldl (λ e' option, add_to_group option group e') e options)
    = next e + sum_list (scopes <$> options).
Proof.
  intros Hall. revert e. induction Hall as [|o options Ho _ IH]; intros e.
  - simpl. rewrite !app_nil_r. by rewrite Nat.add_0_r.
  - cbn [foldl fmap list_fmap concat sum_list sum_list_with].
    rewrite add_to_group_eq.
    destruct (Ho group e) as (Hargs & Hcreated & Hnext).
    destruct (IH (Registry.add_to_parser o group e)) as (Hargs' & Hcreated' & Hnext').
    rewrite Hargs', Hcreated', Hnext', Hargs, Hcreated, Hnext.
    rewrite <- !app_assoc, seq_app. split; [done|]. split; [done|].
    unfold id. lia.
Qed.

Lemma well_formed_mono e cs n :
  well_formed e → next e ≤ n → Forall (λ c, container_of c < n) cs →
  Forall (λ c, container_of c < n) (calls e ++ cs).
Proof.
  intros Hwf Hn Hcs. apply Forall_app. split; [|done].
  eapply Forall_impl; [exact Hwf|]. simpl. lia.
Qed.

Lemma children_keep_well_formed options group e :
  Forall keeps_well_formed options →
  group < next e → well_formed e →
  well_formed (foldl (λ e' option, add_to_group option group e') e options)
  ∧ next e ≤ next (foldl (λ e' option, add_to_group option group e') e options).
Proof.
  intros Hall. revert e. induction Hall as [|o options Ho _ IH]; intros e Hg Hwf.
  - done.
  - simpl. rewrite add_to_group_eq.
    destruct (Ho group e Hg Hwf) as [Hwf1 Hnext1].
    destruct (IH (Registry.add_to_parser o group e)) as [Hwf2 Hnext2];
      [lia|done|].
    split; [done|lia].
Qed.

Lemma add_to_parser_keeps_well_formed (s : Spec) : keeps_well_formed s.
Proof.
  induction s as [args kwargs|name options q m IH] using Spec_nested_ind;
    intros parser e Hparser Hwf.
  - split; [|done]. unfold well_formed. simpl.
    apply well_formed_mono; [done..|]. by repeat constructor.
  - rewrite add_to_parser_group.
    destruct (children_keep_well_formed options (next e)
                (with_scope name q m parser e) IH) as [Hwf' Hnext'].
    + simpl. lia.
    + unfold well_formed. simpl. apply well_formed_mono; [done|lia|].
      constructor; [|done]. destruct m; simpl; lia.
    + split; [done|]. simpl in Hnext'. lia.
Qed.

End WalkFacts.

(** X12. Registration on the objects themselves, following the references a
    group holds, is registration of the specification read off the store:
    whenever the object graph under [self] unfolds within the depth, the
    calls the engine receives are those of the unfolded tree. *)
Theorem add_to_parser_on_unfolding
    (depth : nat) (σ : gmap nat object) (self : nat) (s : Registry.Spec)
    (parser : nat) (e : Registry.engine) :
  Registry.unfold depth σ self = Some s →
  OnStore.add_to_parser depth σ self parser e
  = Some (Registry.add_to_parser s parser e).
Proof.
  revert self s parser e.
  induction depth as [|depth IH]; intros self s parser e Hs; [done|].
  destruct (σ !! self) as [[args kwargs|name options q m]|] eqn:Hself.
  - rewrite (unfold_option _ _ _ _ _ Hself) in Hs. injection Hs as <-.
    by rewrite (on_store_option _ _ _ _ _ _ _ Hself).
  - rewrite (unfold_group _ _ _ _ _ _ _ Hself) in Hs.
    destruct (mapM (Registry.unfold depth σ) options) as [children|] eqn:Hch;
      [|done].
    simpl in Hs. injection Hs as <-.
    rewrite (on_store_group _ _ _ _ _ _ _ _ _ Hself), add_to_parser_group.
    apply mapM_Some_1 in Hch.
    generalize (Registry.with_scope name q m parser e). intros e1.
    clear Hself. revert e1. induction Hch as [|r c options children Hc _ IHch]; intros e1.
    + done.
    + simpl. rewrite (IH r c (Registry.next e) e1 Hc).
      rewrite add_to_group_eq. apply IHch.
  - simpl in Hs. by rewrite Hself in Hs.
Qed.

Lemma add_to_parser_on_unfolding_witness :
  ∃ σ,
    run_ops Catalog.build_groups_group ∅ = Ok σ
    ∧ OnStore.add_to_parser 3 σ 0 0 Registry.fresh_parser
      = Some (Registry.add_to_parser Catalog.groups_group 0 Registry.fresh_parser).
Proof.
  eexists. split; [vm_compute; reflexivity|].
  apply add_to_parser_on_unfolding. reflexivity.
Defined.

(** X13. A group that holds itself among its children cannot be registered:
    whatever the depth allowed, the walk over its children comes back to
    the group and gives no result, and the group has no unfolding. *)
Theorem self_containing_group_never_registers
    (depth : nat) (σ : gmap nat object) (self : nat) (name : list N)
    (options : list nat) (required is_mutually_exclusive : bool)
    (parser : nat) (e : Registry.engine) :
  σ !! self
  = Some (ArgumentGroupObj name options required is_mutually_exclusive) →
  self ∈ options →
  OnStore.add_to_parser depth σ self parser e = None
  ∧ Registry.unfold depth σ self = None.
Proof.
  intros Hself Hin. split.
  - revert parser e. induction depth as [|depth IH]; intros parser e; [done|].
    rewrite (on_store_group _ _ _ _ _ _ _ _ _ Hself).
    generalize (Some (Registry.with_scope name required is_mutually_exclusive
                        parser e)).
    clear Hself. induction options as [|o options IHo]; intros acc.
    + by apply elem_of_nil in Hin.
    + simpl. apply elem_of_cons in Hin as [<-|Hin].
      * destruct acc as [e1|]; simpl; [rewrite IH|]; apply foldl_bind_None.
      * by apply IHo.
  - induction depth as [|depth IH]; [done|].
    rewrite (unfold_group _ _ _ _ _ _ _ Hself).
    assert (Hnone : mapM (Registry.unfold depth σ) options = None).
    { apply mapM_None_2. apply Exists_exists. by exists self. }
    by rewrite Hnone.
Qed.

Lemma self_containing_group_never_registers_witness :
  OnStore.add_to_parser 1000
    {[0 := ArgumentGroupObj (text "loop") [0] false false]} 0 0
    Registry.fresh_parser
  = None.
Proof.
  apply (self_containing_group_never_registers 1000
           {[0 := ArgumentGroupObj (text "loop") [0] false false]} 0
           (text "loop") [0] false false 0 Registry.fresh_parser).
  - reflexivity.
  - apply list_elem_of_here.
Defined.

(** X14. Registering a specification hands the engine every flag of the
    tree exactly once, in the order the tree lists them (children in
    insertion order, a nested group where it was inserted), and creates
    exactly one container per group, each with a number no container had
    before. *)
Theorem add_to_parser_registers_every_leaf
    (s : Registry.Spec) (parser : nat) (e : Registry.engine) :
  Measure.arguments (Registry.calls (Registry.add_to_parser s parser e))
  = Measure.arguments (Registry.calls e) ++ Measure.leaves s
  ∧ Measure.created (Registry.calls (Registry.add_to_parser s parser e))
    = Measure.created (Registry.calls e)
      ++ seq (Registry.next e) (Measure.scopes s)
  ∧ Registry.next (Registry.add_to_parser s parser e)
    = Registry.next e + Measure.scopes s.
Proof.
  revert parser e. fold (Measure.adds_its_leaves s).
  induction s as [args kwargs|name options q m IH] using Spec_nested_ind;
    intros parser e.
  - simpl. unfold Measure.arguments, Measure.created. rewrite !omap_app. simpl.
    rewrite app_nil_r. split; [done|]. split; [done|]. lia.
  - rewrite add_to_parser_group, leaves_group, scopes_group.
    destruct (children_add_their_leaves options (Registry.next e)
                (Registry.with_scope name q m parser e) IH)
      as (Hargs & Hcreated & Hnext).
    rewrite Hargs, Hcreated, Hnext. simpl.
    destruct (arguments_scope_call name q m parser (Registry.next e))
      as [Ha Hc].
    unfold Measure.arguments, Measure.created in *. rewrite !omap_app, Ha, Hc.
    rewrite app_nil_r, <- app_assoc. split; [done|]. split; [done|]. lia.
Qed.

(** X15. Registration into a container that exists keeps the engine well
    formed and only adds to it: the calls made before remain, in place, and
    so does what every container held. *)
Theorem add_to_parser_keeps_engine
    (s : Registry.Spec) (parser : nat) (e : Registry.engine) :
  parser < Registry.next e →
  Registry.well_formed e →
  Registry.well_formed (Registry.add_to_parser s parser e)
  ∧ Registry.calls e `prefix_of` Registry.calls (Registry.add_to_parser s parser e)
  ∧ ∀ container,
      Registry.registered container e
      `prefix_of` Registry.registered container (Registry.add_to_parser s parser e).
Proof.
  intros Hparser Hwf.
  destruct (add_to_parser_keeps_well_formed s parser e Hparser Hwf) as [Hwf' _].
  destruct (add_to_parser_registers_one s parser e) as (c & rest & Hcalls & _).
  split; [done|]. split.
  - rewrite Hcalls. by apply prefix_app_r.
  - intros container. unfold Registry.registered.
    rewrite Hcalls, members_app. by apply prefix_app_r.
Qed.

Lemma add_to_parser_keeps_engine_witness :
  Registry.well_formed
    (Registry.add_to_parser Catalog.groups_group 0 Registry.fresh_parser).
Proof.
  apply (add_to_parser_keeps_engine Catalog.groups_group 0 Registry.fresh_parser).
  - simpl. lia.
  - constructor.
Defined.

(** X16. A group that is not mutually exclusive is registered the same way
    whatever its required flag is, and a mutually exclusive group the same
    way whatever its name is: the engine is never given the one or the
    other. *)
Theorem add_to_parser_ignores
    (name name' : list N) (options : list Registry.Spec)
    (required required' : bool) (parser : nat) (e : Registry.engine) :
  Registry.add_to_parser (Registry.ArgumentGroup_ name options required false)
    parser e
  = Registry.add_to_parser (Registry.ArgumentGroup_ name options required' false)
      parser e
  ∧ Registry.add_to_parser (Registry.ArgumentGroup_ name options required true)
      parser e
    = Registry.add_to_parser (Registry.ArgumentGroup_ name' options required true)
        parser e.
Proof. by rewrite !add_to_parser_group. Qed.

(** ** The handlers of the catalog *)

Section HandlerFacts.

Import Driver.

Implicit Types w : World.
Implicit Types ns : gmap string value.

Lemma frozen_lockfile_option_step w ns values (alias : list N) :
  let w' := (frozen_lockfile_option w ns values (VStr alias)).1 in
  (frozen_lockfile_option w ns values (VStr alias)).2 = None
  ∧ warnings (project w')
    = warnings (project w)
      ++ (if bool_decide (alias = text "--no-lock")
          then [text "--no-lock is deprecated, use --frozen-lockfile instead."]
          else [])
  ∧ enable_write_lockfile (project w') = false
  ∧ environ w' = environ w
  ∧ stdout w' = stdout w.
Proof.
  unfold frozen_lockfile_option, eq_text.
  destruct (bool_decide (alias = text "--no-lock")); simpl; [done|].
  by rewrite app_nil_r.
Qed.

End HandlerFacts.

(** X17. The frozen-lockfile handler always returns, always leaves lockfile
    writing disabled, and leaves the environment and the output alone. It
    warns once per use of the deprecated alias [--no-lock] and never for
    another alias: after the handler has run for a sequence of aliases, the
    warnings are the earlier ones followed by one deprecation message per
    [--no-lock]. *)
Theorem frozen_lockfile_option_warns_per_deprecated_alias
    (w : Driver.World) (namespace : gmap string value) (values : value)
    (aliases : list (list N)) :
  let after :=
    foldl (λ w alias,
             (Driver.frozen_lockfile_option w namespace values (VStr alias)).1)
      w aliases in
  Driver.warnings (Driver.project after)
  = Driver.warnings (Driver.project w)
    ++ replicate (length (filter (λ alias, alias = text "--no-lock") aliases))
         (text "--no-lock is deprecated, use --frozen-lockfile instead.")
  ∧ (aliases ≠ [] →
       Driver.enable_write_lockfile (Driver.project after) = false)
  ∧ Driver.environ after = Driver.environ w
  ∧ Driver.stdout after = Driver.stdout w
  ∧ ∀ w' alias,
      (Driver.frozen_lockfile_option w' namespace values (VStr alias)).2 = None.
Proof.
  intros after. subst after. split; [|split; [|split; [|split]]].
  - revert w. induction aliases as [|alias aliases IH]; intros w.
    + simpl. by rewrite app_nil_r.
    + cbn [foldl]. rewrite IH.
      destruct (frozen_lockfile_option_step w namespace values alias)
        as (_ & -> & _).
      rewrite filter_cons. rewrite <- app_assoc. f_equal.
      destruct (decide (alias = text "--no-lock")) as [Heq|Hne].
      * by rewrite bool_decide_eq_true_2.
      * by rewrite bool_decide_eq_false_2.
  - intros Hne. destruct aliases as [|alias aliases _] using rev_ind; [done|].
    rewrite foldl_app. cbn [foldl].
    destruct (frozen_lockfile_option_step
                (foldl (λ w alias,
                   (Driver.frozen_lockfile_option w namespace values
                      (VStr alias)).1) w aliases)
                namespace values alias) as (_ & _ & Hoff & _).
    exact Hoff.
  - revert w. induction aliases as [|alias aliases IH]; intros w; [done|].
    cbn [foldl]. rewrite IH.
    by destruct (frozen_lockfile_option_step w namespace values alias)
      as (_ & _ & _ & -> & _).
  - revert w. induction aliases as [|alias aliases IH]; intros w; [done|].
    cbn [foldl]. rewrite IH.
    by destruct (frozen_lockfile_option_step w namespace values alias)
      as (_ & _ & _ & _ & ->).
  - intros w' alias.
    by destruct (frozen_lockfile_option_step w' namespace values alias)
      as (-> & _).
Qed.

(** X18. The three handlers of the catalog that return (frozen lockfile, no
    isolation, ignore python) commute: whichever of two such deferred
    invocations runs first, the execution context ends up the same. *)
Theorem returning_handlers_commute
    (pep582_command : Driver.Project → value → list N)
    (user_handler : nat → Driver.World → gmap string value → value → value
                    → Driver.World * option exn)
    (f g : handler) (w : Driver.World) (namespace : gmap string value)
    (values1 option_string1 values2 option_string2 : value) :
  Measure.returns f →
  Measure.returns g →
  let run h := Driver.run_handler pep582_command user_handler h in
  (run g (run f w namespace values1 option_string1).1 namespace values2
     option_string2).1
  = (run f (run g w namespace values2 option_string2).1 namespace values1
       option_string1).1
  ∧ (run f w namespace values1 option_string1).2 = None
  ∧ (run g w namespace values2 option_string2).2 = None.
Proof.
  intros Hf Hg run. subst run.
  assert (Hkeys : text "PDM_BUILD_ISOLATION" ≠ text "PDM_IGNORE_SAVED_PYTHON")
    by discriminate.
  destruct f, g; try done; simpl;
    unfold Driver.frozen_lockfile_option, Driver.no_isolation_option,
      Driver.ignore_python_option, Driver.set_environ,
      Driver.set_enable_write_lockfile, Driver.warn;
    repeat match goal with
           | |- context [Driver.eq_text ?a ?b] => destruct (Driver.eq_text a b)
           end;
    simpl; split; try done; f_equal; try done.
  - by apply insert_insert_ne.
  - by apply insert_insert_ne.
Qed.

Lemma returning_handlers_commute_witness :
  let w := {| Driver.project := {| Driver.enable_write_lockfile := true;
                                   Driver.warnings := [] |};
              Driver.environ := ∅;
              Driver.stdout := [] |} in
  let run h := Driver.run_handler (λ _ _, []) (λ _ w _ _ _, (w, None)) h in
  (run ignore_python_fn
     (run frozen_lockfile_fn w ∅ (VList []) (VStr (text "--no-lock"))).1 ∅
     (VList []) (VStr (text "-I"))).1
  = (run frozen_lockfile_fn
       (run ignore_python_fn w ∅ (VList []) (VStr (text "-I"))).1 ∅
       (VList []) (VStr (text "--no-lock"))).1.
Proof.
  intros w run.
  apply (returning_handlers_commute (λ _ _, []) (λ _ w _ _ _, (w, None))
           frozen_lockfile_fn ignore_python_fn w ∅ (VList [])
           (VStr (text "--no-lock")) (VList []) (VStr (text "-I"))).
  - exact I.
  - exact I.
Defined.
